(** * mirdata, haydn_op20 loader: interval collapsing of key and chord annotations

    A shallow embedding of [load_key] and [load_chords] of
    [mirdata/datasets/haydn_op20.py], and of the run-length interval
    collapser that the specification describes, with the properties of
    the specification settled against the two loaders. *)

From Stdlib Require Import ZArith List String Ascii Bool Lia.
Import ListNotations.

Set Implicit Arguments.
Local Open Scope string_scope.
Local Open Scope list_scope.
Local Open Scope Z_scope.

(** ** The fragment of Python the loaders use *)

Module Py.

(** The exceptions the modelled statements can raise. *)
Inductive exn : Type :=
| IndexError
| ValueError.

(** A computation either returns or raises. *)
Inductive result (A : Type) : Type :=
| Ok (a : A)
| Raise (e : exn).

Arguments Ok {A} a.
Arguments Raise {A} e.

Definition bind {A B : Type} (c : result A) (k : A -> result B) : result B :=
  match c with
  | Ok a => k a
  | Raise e => Raise e
  end.

(** [l[i]] for an index [i >= 0]. *)
Definition getitem {A : Type} (l : list A) (i : nat) : result A :=
  match nth_error l i with
  | Some a => Ok a
  | None => Raise IndexError
  end.

(** [l[-1]]. *)
Definition getitem_last {A : Type} (l : list A) : result A :=
  match rev l with
  | a :: _ => Ok a
  | [] => Raise IndexError
  end.

(** [l.append(x)], as the new value of [l]. *)
Definition list_append {A : Type} (l : list A) (x : A) : list A := l ++ [x].

Fixpoint enumerate_from {A : Type} (n : nat) (l : list A) : list (nat * A) :=
  match l with
  | [] => []
  | a :: r => (n, a) :: enumerate_from (S n) r
  end.

(** [enumerate(l)]. *)
Definition enumerate {A : Type} (l : list A) : list (nat * A) :=
  enumerate_from 0 l.

(** [for x in l: body], the loop's local variables threaded as [s]. *)
Fixpoint for_each {S A : Type} (body : S -> A -> result S) (l : list A) (s : S)
  : result S :=
  match l with
  | [] => Ok s
  | a :: r => bind (body s a) (for_each body r)
  end.

(** [s.replace(old, new)] for one-character [old] and [new]. *)
Fixpoint str_replace (old new : ascii) (s : string) : string :=
  match s with
  | EmptyString => EmptyString
  | String c r =>
      String (if Ascii.eqb c old then new else c) (str_replace old new r)
  end.

(** Rounding of [a / d] to an integer, half-way cases to the even one. *)
Definition round_half_even (a d : Z) : Z :=
  let q := a / d in
  let r := a mod d in
  if 2 * r <? d then q
  else if d <? 2 * r then q + 1
  else if Z.even q then q else q + 1.

(** [float(n)] for an integer [n], as the integer the float is: [n] rounded
    to 53 significant bits, half-way cases to the even significand.  An
    integer of at most 53 bits is kept; above, the low bits are rounded
    away, so [float(2**53 + 3)] is [2**53 + 4].  The exponent is not bounded
    here: the integers the loaders convert are ticks
    [int(round(float(..)))], ticks minus one and 0, which all lie in the
    range of a float. *)
Definition float_of_int (n : Z) : Z :=
  let a := Z.abs n in
  let s := Z.max 0 (Z.log2 a - 52) in
  Z.sgn n * (2 ^ s * round_half_even a (2 ^ s)).

(** [np.array([row0, row1]).astype(float).T]: the two lists, each entry
    converted to float, as the columns of an n-by-2 array, one
    [(float(row0[i]), float(row1[i]))] per line.  Lists of different lengths
    do not make a numeric array. *)
Definition np_array_T (row0 row1 : list Z) : result (list (Z * Z)) :=
  if Nat.eqb (List.length row0) (List.length row1)
  then Ok (combine (map float_of_int row0) (map float_of_int row1))
  else Raise ValueError.

End Py.

Import Py.

Notation "x <- c ;; k" := (bind c (fun x => k))
  (at level 61, c at next level, right associativity).

(** ** Annotations and annotation containers *)

(** One entry of the list [_load_key_base] returns: [{"time": .., "key": ..}],
    the key held as the string [str] renders it. *)
Record KeyAnnotation : Type := mkKey { key_time : Z; key : string }.

(** One entry of the list [_load_chords_base] returns:
    [{"time": .., "chord": ..}]. *)
Record ChordAnnotation : Type := mkChord { chord_time : Z; chord : string }.

(** Modelled from the spec: [mirdata.annotations.KeyData], which is not among
    the sources.  The specification describes the interval data as parallel
    arrays of start times, end times and labels; the container keeps the
    n-by-2 interval array, its unit, the labels and their unit, as the
    constructor call passes them. *)
Record KeyData : Type := mkKeyData {
  kd_intervals : list (Z * Z);
  kd_interval_unit : string;
  kd_keys : list string;
  kd_key_unit : string
}.

(** Modelled from the spec: [mirdata.annotations.ChordData], as [KeyData]. *)
Record ChordData : Type := mkChordData {
  cd_intervals : list (Z * Z);
  cd_interval_unit : string;
  cd_labels : list string;
  cd_labels_unit : string
}.

(** ** The loaders *)

(** The three lists a loader builds: [start_times, end_times, names]. *)
Definition locals : Type := (list Z * list Z * list string)%type.

(** [str(k["key"]).replace("-", "b")]. *)
Definition key_flat (s : string) : string := str_replace "-"%char "b"%char s.

(** [str(k["key"]).replace("-", "b").replace(" ", ":")]. *)
Definition key_flat_colon (s : string) : string :=
  str_replace " "%char ":"%char (key_flat s).

(** The body of the loop of [load_key]. *)
Definition load_key_body (keys : list KeyAnnotation) (st : locals)
    (ik : nat * KeyAnnotation) : result locals :=
  let '(start_times, end_times, key_names) := st in
  let '(ii, k) := ik in
  last_name <- getitem_last key_names ;;
  if negb (String.eqb (key_flat (key k)) last_name) then
    k1 <- getitem keys ii ;;
    let end_times := list_append end_times (key_time k1 - 1) in
    k2 <- getitem keys ii ;;
    let start_times := list_append start_times (key_time k2) in
    k3 <- getitem keys ii ;;
    let key_names := list_append key_names (key_flat_colon (key k3)) in
    Ok (start_times, end_times, key_names)
  else Ok st.

(** The statements of [load_key] up to the last [append]: the three lists
    [start_times, end_times, key_names] it has built when it reaches its
    [return]. *)
Definition load_key_lists (keys : list KeyAnnotation) : result locals :=
  k0 <- getitem keys 0 ;;
  let st := ([0], [], [key_flat (key k0)]) in
  st <- for_each (load_key_body keys) (enumerate keys) st ;;
  let '(start_times, end_times, key_names) := st in
  kl <- getitem_last keys ;;
  let end_times := list_append end_times (key_time kl) in
  Ok (start_times, end_times, key_names).

(** [load_key], from the annotation list [_load_key_base] returns. *)
Definition load_key (keys : list KeyAnnotation) : result KeyData :=
  st <- load_key_lists keys ;;
  let '(start_times, end_times, key_names) := st in
  intervals <- np_array_T start_times end_times ;;
  Ok (mkKeyData intervals "ticks" key_names "key_mode").

(** The body of the loop of [load_chords]. *)
Definition load_chords_body (chords : list ChordAnnotation) (st : locals)
    (ik : nat * ChordAnnotation) : result locals :=
  let '(start_times, end_times, chord_names) := st in
  let '(ii, k) := ik in
  last_name <- getitem_last chord_names ;;
  if negb (String.eqb (chord k) last_name) then
    k1 <- getitem chords ii ;;
    let end_times := list_append end_times (chord_time k1 - 1) in
    k2 <- getitem chords ii ;;
    let start_times := list_append start_times (chord_time k2) in
    k3 <- getitem chords ii ;;
    let chord_names := list_append chord_names (chord k3) in
    Ok (start_times, end_times, chord_names)
  else Ok st.

(** The statements of [load_chords] up to the last [append]. *)
Definition load_chords_lists (chords : list ChordAnnotation) : result locals :=
  k0 <- getitem chords 0 ;;
  let st := ([0], [], [chord k0]) in
  st <- for_each (load_chords_body chords) (enumerate chords) st ;;
  let '(start_times, end_times, chord_names) := st in
  kl <- getitem_last chords ;;
  let end_times := list_append end_times (chord_time kl) in
  Ok (start_times, end_times, chord_names).

(** [load_chords], from the annotation list [_load_chords_base] returns. *)
Definition load_chords (chords : list ChordAnnotation) : result ChordData :=
  st <- load_chords_lists chords ;;
  let '(start_times, end_times, chord_names) := st in
  intervals <- np_array_T start_times end_times ;;
  Ok (mkChordData intervals "ticks" chord_names "open").

(** ** The loop as a function of the annotation list

    Both loops have one shape: an annotation [k] is compared, as
    [compared (raw k)], with the last name appended, and when they differ an
    interval is opened at [time k] under the name [stored (raw k)]. *)

Section Loop.

Variable A : Type.
Variable time : A -> Z.
Variable raw : A -> string.
Variables compared stored : string -> string.

(** The loop body over the parameters. *)
Definition body (anns : list A) (st : locals) (ik : nat * A) : result locals :=
  let '(start_times, end_times, names) := st in
  let '(ii, k) := ik in
  last_name <- getitem_last names ;;
  if negb (String.eqb (compared (raw k)) last_name) then
    k1 <- getitem anns ii ;;
    let end_times := list_append end_times (time k1 - 1) in
    k2 <- getitem anns ii ;;
    let start_times := list_append start_times (time k2) in
    k3 <- getitem anns ii ;;
    let names := list_append names (stored (raw k3)) in
    Ok (start_times, end_times, names)
  else Ok st.

(** The statements of a loader up to its last [append]. *)
Definition loader_lists (anns : list A) : result locals :=
  k0 <- getitem anns 0 ;;
  let st := ([0], [], [compared (raw k0)]) in
  st <- for_each (body anns) (enumerate anns) st ;;
  let '(start_times, end_times, names) := st in
  kl <- getitem_last anns ;;
  let end_times := list_append end_times (time kl) in
  Ok (start_times, end_times, names).

(** The annotations of [l] at which the loop opens an interval, [pending]
    being the last name appended so far. *)
Fixpoint openers (pending : string) (l : list A) : list A :=
  match l with
  | [] => []
  | k :: r =>
      if String.eqb (compared (raw k)) pending then openers pending r
      else k :: openers (stored (raw k)) r
  end.

(** The annotations of [l] by the interval that is the last one when the loop
    visits them: those that stay with the pending interval, then, for each
    interval opened, the annotation that opens it and those that stay
    with it. *)
Fixpoint groups (pending : string) (l : list A) : list A * list (A * list A) :=
  match l with
  | [] => ([], [])
  | k :: r =>
      if String.eqb (compared (raw k)) pending then
        let '(g, gs) := groups pending r in (k :: g, gs)
      else
        let '(g, gs) := groups (stored (raw k)) r in ([], (k, g) :: gs)
  end.

(** The lists the loader builds from [l], as closed formulas. *)
Definition lists_of (l : list A) : result locals :=
  match l with
  | [] => Raise IndexError
  | k0 :: _ =>
      let o := openers (compared (raw k0)) l in
      Ok (0 :: map time o,
          map (fun k => time k - 1) o ++ [time (last l k0)],
          compared (raw k0) :: map (fun k => stored (raw k)) o)
  end.

(** The groups of the whole list, the first one the group of interval 0. *)
Definition grouping (l : list A) : list (list A) :=
  match l with
  | [] => []
  | k0 :: _ =>
      let '(g, gs) := groups (compared (raw k0)) l in
      g :: map (fun kg => fst kg :: snd kg) gs
  end.

End Loop.

Definition key_openers : string -> list KeyAnnotation -> list KeyAnnotation :=
  openers key key_flat key_flat_colon.

Definition chord_openers : string -> list ChordAnnotation -> list ChordAnnotation :=
  openers chord (fun s => s) (fun s => s).

Definition key_grouping : list KeyAnnotation -> list (list KeyAnnotation) :=
  grouping key key_flat key_flat_colon.

Definition chord_grouping : list ChordAnnotation -> list (list ChordAnnotation) :=
  grouping chord (fun s => s) (fun s => s).

(** ** The collapser of the specification *)

(** An interval of the specification's data model. *)
Record Interval : Type := mkInterval {
  start_time : Z;
  end_time : Z;
  label : string
}.

Inductive collapse_error : Type := InvalidInput.

(** Times in non-decreasing order. *)
Fixpoint nondecreasing (ts : list Z) : bool :=
  match ts with
  | [] => true
  | a :: r =>
      match r with
      | [] => true
      | b :: _ => (a <=? b) && nondecreasing r
      end
  end.

(** Tick counts are non-negative. *)
Definition nonnegative (ts : list Z) : bool := forallb (fun t => 0 <=? t) ts.

Section Collapse.

Variable L : Type.
Variable normalize : L -> string.

(** Steps 2 and 3 of the algorithm: the walk over the remaining events, with
    the pending interval's start and label and the time of the last event
    seen. *)
Fixpoint collapse_walk (pending_start : Z) (pending_label : string)
    (last_time : Z) (events : list (Z * L)) : list Interval :=
  match events with
  | [] => [mkInterval pending_start last_time pending_label]
  | (t, l) :: rest =>
      if String.eqb (normalize l) pending_label then
        collapse_walk pending_start pending_label t rest
      else
        mkInterval pending_start (t - 1) pending_label
          :: collapse_walk t (normalize l) t rest
  end.

(** [collapse(events, normalize)] as the specification words it. *)
Definition collapse (events : list (Z * L)) : collapse_error + list Interval :=
  match events with
  | [] => inl InvalidInput
  | (t0, l0) :: rest =>
      if nondecreasing (map fst events) then
        inr (collapse_walk 0 (normalize l0) t0 rest)
      else inl InvalidInput
  end.

(** The maximal runs of consecutive events with equal normalized labels. *)
Fixpoint runs (events : list (Z * L)) : list (list (Z * L)) :=
  match events with
  | [] => []
  | e :: rest =>
      match runs rest with
      | (e' :: g) :: gs =>
          if String.eqb (normalize (snd e)) (normalize (snd e'))
          then (e :: e' :: g) :: gs
          else [e] :: (e' :: g) :: gs
      | _ => [[e]]
      end
  end.

End Collapse.

(** ** Views of the loaders' inputs and outputs *)

Definition key_events (keys : list KeyAnnotation) : list (Z * string) :=
  map (fun k => (key_time k, key k)) keys.

Definition chord_events (chords : list ChordAnnotation) : list (Z * string) :=
  map (fun k => (chord_time k, chord k)) chords.

(** The rows of an interval array with their labels. *)
Definition labelled (rows : list (Z * Z)) (names : list string) : list Interval :=
  map (fun rn => mkInterval (fst (fst rn)) (snd (fst rn)) (snd rn))
      (combine rows names).

Definition key_data_intervals (kd : KeyData) : list Interval :=
  labelled (kd_intervals kd) (kd_keys kd).

Definition chord_data_intervals (cd : ChordData) : list Interval :=
  labelled (cd_intervals cd) (cd_labels cd).

(** [t] lies in the inclusive range of the row. *)
Definition within (t : Z) (row : Z * Z) : bool :=
  (fst row <=? t) && (t <=? snd row).

(** The number of rows whose range holds [t]. *)
Definition covering (t : Z) (rows : list (Z * Z)) : nat :=
  List.length (filter (within t) rows).

(** The string holds the character. *)
Fixpoint str_contains (c : ascii) (s : string) : bool :=
  match s with
  | EmptyString => false
  | String d r => Ascii.eqb d c || str_contains c r
  end.

(** The rows of an integer array after [.astype(float)]. *)
Definition float_rows (rows : list (Z * Z)) : list (Z * Z) :=
  map (fun row => (float_of_int (fst row), float_of_int (snd row))) rows.

(** An interval with its times converted to float. *)
Definition float_interval (iv : Interval) : Interval :=
  mkInterval (float_of_int (start_time iv)) (float_of_int (end_time iv)) (label iv).

(** Ticks [t] such that [t] and [t - 1] are integers a float holds exactly:
    above [- 2 ^ 53] and at most [2 ^ 53]. *)
Definition small_ticks (ts : list Z) : bool :=
  forallb (fun t => (- 2 ^ 53 <? t) && (t <=? 2 ^ 53)) ts.

(** The rows with first start [a], later starts [bs] and last end [T]: each
    row but the last ends one tick before the next one starts. *)
Fixpoint rows_from (a : Z) (bs : list Z) (T : Z) : list (Z * Z) :=
  match bs with
  | [] => [(a, T)]
  | b :: r => (a, b - 1) :: rows_from b r T
  end.

(** [a], then [bs], then [T] in non-decreasing order. *)
Fixpoint chain (a : Z) (bs : list Z) (T : Z) : Prop :=
  match bs with
  | [] => a <= T
  | b :: r => a <= b /\ chain b r T
  end.

(** A pending group as the first run, when it holds an annotation. *)
Definition first_group (g : list (Z * string)) : list (list (Z * string)) :=
  match g with
  | [] => []
  | _ :: _ => [g]
  end.

(** ** From the roman numerals of a score to the annotation lists *)

(** What the loaders read of a [music21] roman numeral: its offset, its truth
    value [bool(rn)], its keys as the strings [str] renders them (the
    secondary key is [None] when the numeral tonicizes nothing), its figure
    and the name of its chord. *)
Record RomanNumeral (O : Type) : Type := mkRomanNumeral {
  offset : O;
  truth : bool;
  secondaryRomanNumeralKey : option string;
  rn_key : string;
  figure : string;
  pitchedCommonName : string
}.

Arguments offset {O} r.
Arguments truth {O} r.
Arguments secondaryRomanNumeralKey {O} r.
Arguments rn_key {O} r.
Arguments figure {O} r.
Arguments pitchedCommonName {O} r.

(** One entry of the list [load_roman_numerals] returns:
    [{"time": .., "roman_numeral": ..}]. *)
Record RomanAnnotation : Type := mkRoman { roman_time : Z; roman_numeral : string }.

(** [x or y] for an [x] that is [None] or a key. *)
Definition py_or (x : option string) (y : string) : string :=
  match x with
  | Some k => k
  | None => y
  end.

(** A subsequence: the elements of the first list are elements of the second,
    in the same order. *)
Inductive subsequence (X : Type) : list X -> list X -> Prop :=
| subsequence_nil : subsequence [] []
| subsequence_skip : forall x s l, subsequence s l -> subsequence s (x :: l)
| subsequence_keep : forall x s l, subsequence s l -> subsequence (x :: s) (x :: l).

Section Score.

(** Offsets, with the equality a [dict] tests its keys by. *)
Variable O : Type.
Variable O_eq_dec : forall a b : O, {a = b} + {a <> b}.

(** [int(round(float(offset * resolution)))]: the float arithmetic is not
    modelled, the conversion to ticks is a parameter. *)
Variable ticks : O -> Z -> Z.

(** [d[k] = v] on a [dict] kept as its items in insertion order: the value
    of a key already present is replaced where the key stands, a new key goes
    to the end. *)
Fixpoint dict_set (V : Type) (d : list (O * V)) (k : O) (v : V) : list (O * V) :=
  match d with
  | [] => [(k, v)]
  | (k', v') :: r =>
      if O_eq_dec k' k then (k', v) :: r else (k', v') :: dict_set r k v
  end.

(** [{rn.offset: rn for rn in elements}], as [rna.items()]. *)
Definition rna_items (elements : list (RomanNumeral O)) : list (O * RomanNumeral O) :=
  fold_left (fun d rn => dict_set d (offset rn) rn) elements [].

(** The annotations [_split_score_annotations] returns beside the score,
    [[(offset, rn) for offset, rn in rna.items() if rn]], from the roman
    numerals [score.flat.getElementsByClass("RomanNumeral")] lists. *)
Definition _split_score_annotations (elements : list (RomanNumeral O))
  : list (O * RomanNumeral O) :=
  filter (fun item => truth (snd item)) (rna_items elements).

(** [_load_key_base], from the roman numerals of the parsed score. *)
Definition _load_key_base (elements : list (RomanNumeral O)) (resolution : Z)
  : list KeyAnnotation :=
  let rna := _split_score_annotations elements in
  fold_left
    (fun annotations item =>
       let '(offset, rn) := item in
       let time := ticks offset resolution in
       let tonicizedKey := secondaryRomanNumeralKey rn in
       let key := py_or tonicizedKey (rn_key rn) in
       list_append annotations (mkKey time key))
    rna [].

(** [load_roman_numerals], from the roman numerals of the parsed score. *)
Definition load_roman_numerals (elements : list (RomanNumeral O)) (resolution : Z)
  : list RomanAnnotation :=
  let rna := _split_score_annotations elements in
  fold_left
    (fun annotations item =>
       let '(offset, rn) := item in
       let time := ticks offset resolution in
       list_append annotations (mkRoman time (figure rn)))
    rna [].

(** [_load_chords_base], from the roman numerals of the parsed score. *)
Definition _load_chords_base (elements : list (RomanNumeral O)) (resolution : Z)
  : list ChordAnnotation :=
  let rna := _split_score_annotations elements in
  fold_left
    (fun annotations item =>
       let '(offset, rn) := item in
       let time := ticks offset resolution in
       list_append annotations (mkChord time (pitchedCommonName rn)))
    rna [].

(** [load_key_music21] and [load_chords_music21] return the base lists. *)
Definition load_key_music21 (elements : list (RomanNumeral O)) (resolution : Z)
  : list KeyAnnotation :=
  _load_key_base elements resolution.

Definition load_chords_music21 (elements : list (RomanNumeral O)) (resolution : Z)
  : list ChordAnnotation :=
  _load_chords_base elements resolution.

(** [load_key] and [load_chords] whole: the base list, then the intervals. *)
Definition load_key_of (elements : list (RomanNumeral O)) (resolution : Z)
  : result KeyData :=
  load_key (_load_key_base elements resolution).

Definition load_chords_of (elements : list (RomanNumeral O)) (resolution : Z)
  : result ChordData :=
  load_chords (_load_chords_base elements resolution).

(** The cached properties of a [Track], each computed from the roman
    numerals of the track's score at the default resolution. *)
Definition track_keys (elements : list (RomanNumeral O)) : result KeyData :=
  load_key_of elements 28.

Definition track_keys_music21 (elements : list (RomanNumeral O)) : list KeyAnnotation :=
  load_key_music21 elements 28.

Definition track_roman_numerals (elements : list (RomanNumeral O))
  : list RomanAnnotation :=
  load_roman_numerals elements 28.

Definition track_chords (elements : list (RomanNumeral O)) : result ChordData :=
  load_chords_of elements 28.

Definition track_chords_music21 (elements : list (RomanNumeral O))
  : list ChordAnnotation :=
  load_chords_music21 elements 28.

(** [duration]: [self.chords_music21[-1]["time"]]. *)
Definition track_duration (elements : list (RomanNumeral O)) : result Z :=
  last_chord <- getitem_last (track_chords_music21 elements) ;;
  Ok (chord_time last_chord).

End Score.

(** Times in strictly increasing order. *)
Fixpoint increasing (ts : list Z) : bool :=
  match ts with
  | [] => true
  | a :: r =>
      match r with
      | [] => true
      | b :: _ => (a <? b) && increasing r
      end
  end.

(** [a], then [bs] strictly increasing from above [a], then [T] not before
    the last of them. *)
Fixpoint strict_chain (a : Z) (bs : list Z) (T : Z) : Prop :=
  match bs with
  | [] => a <= T
  | b :: r => a < b /\ strict_chain b r T
  end.

(** No two consecutive names are equal. *)
Fixpoint adjacent_differ (names : list string) : Prop :=
  match names with
  | [] => True
  | a :: r =>
      match r with
      | [] => True
      | b :: _ => a <> b /\ adjacent_differ r
      end
  end.

(** ** Examples of the specification *)

Example load_key_two_runs :
  load_key [mkKey 0 "C"; mkKey 5 "C"; mkKey 6 "G"; mkKey 20 "G"]
  = Ok (mkKeyData [(0, 5); (6, 20)] "ticks" ["C"; "G"] "key_mode").
Proof. reflexivity. Qed.

Example load_key_flat_sign :
  load_key [mkKey 0 "B-"; mkKey 4 "Bb"]
  = Ok (mkKeyData [(0, 4)] "ticks" ["Bb"] "key_mode").
Proof. reflexivity. Qed.

Example load_chords_single_run :
  load_chords [mkChord 0 "C"; mkChord 10 "C"; mkChord 20 "C"]
  = Ok (mkChordData [(0, 20)] "ticks" ["C"] "open").
Proof. reflexivity. Qed.

Unset Implicit Arguments.

(** ** The Python fragment: lookups *)

Lemma getitem_last_app (B : Type) (l : list B) (x : B) :
  getitem_last (l ++ [x]) = Ok x.
Proof. unfold getitem_last. rewrite rev_app_distr. reflexivity. Qed.

Lemma getitem_last_cons (B : Type) (a : B) (l : list B) :
  getitem_last (a :: l) = Ok (last (a :: l) a).
Proof.
  assert (H : a :: l <> []) by discriminate.
  rewrite (app_removelast_last a H) at 1.
  apply getitem_last_app.
Qed.

Lemma getitem_middle (B : Type) (pre : list B) (k : B) (r : list B) :
  getitem (pre ++ k :: r) (List.length pre) = Ok k.
Proof.
  unfold getitem. rewrite nth_error_app2 by apply Nat.le_refl.
  rewrite Nat.sub_diag. reflexivity.
Qed.

Lemma last_cons_default (B : Type) (a d : B) (l : list B) :
  last (a :: l) d = last l a.
Proof.
  revert a d. induction l as [|b l IH]; intros a d; [reflexivity|].
  change (last (a :: b :: l) d) with (last (b :: l) d).
  rewrite (IH b d), (IH b a). reflexivity.
Qed.

(** ** The loop computes the closed formulas *)

Section LoopFacts.

Variable A : Type.
Variable time : A -> Z.
Variable raw : A -> string.
Variables compared stored : string -> string.

Let openers' := openers raw compared stored.

Lemma for_each_body (rest pre : list A) :
  forall (s e : list Z) (names : list string) (p : string),
    for_each (body time raw compared stored (pre ++ rest))
             (enumerate_from (List.length pre) rest) (s, e, names ++ [p])
    = Ok (s ++ map time (openers' p rest),
          e ++ map (fun k => time k - 1) (openers' p rest),
          (names ++ [p]) ++ map (fun k => stored (raw k)) (openers' p rest)).
Proof.
  revert pre. induction rest as [|k r IH]; intros pre s e names p.
  - simpl. rewrite !app_nil_r. reflexivity.
  - cbn [enumerate_from for_each]. unfold body at 1.
    rewrite getitem_last_app. cbn [bind]. subst openers'. cbn [openers].
    destruct (String.eqb (compared (raw k)) p) eqn:E; cbn [negb bind].
    + replace (pre ++ k :: r) with ((pre ++ [k]) ++ r)
        by (rewrite <- app_assoc; reflexivity).
      replace (S (List.length pre)) with (List.length (pre ++ [k]))
        by (rewrite length_app; simpl; lia).
      apply IH.
    + rewrite getitem_middle. cbn [bind]. unfold list_append.
      replace (pre ++ k :: r) with ((pre ++ [k]) ++ r)
        by (rewrite <- app_assoc; reflexivity).
      replace (S (List.length pre)) with (List.length (pre ++ [k]))
        by (rewrite length_app; simpl; lia).
      rewrite IH. cbn [map]. rewrite <- !app_assoc. reflexivity.
Qed.

Lemma loader_lists_of (anns : list A) :
  loader_lists time raw compared stored anns
  = lists_of time raw compared stored anns.
Proof.
  destruct anns as [|k0 r]; [reflexivity|].
  unfold loader_lists, enumerate.
  change (getitem (k0 :: r) 0) with (Ok k0). cbn [bind].
  pose proof (for_each_body (k0 :: r) [] [0] [] [] (compared (raw k0))) as H.
  cbn [app List.length] in H. rewrite H. cbn [bind].
  rewrite getitem_last_cons. cbn [bind]. unfold list_append, lists_of.
  reflexivity.
Qed.

End LoopFacts.

Lemma load_key_lists_of (keys : list KeyAnnotation) :
  load_key_lists keys = lists_of key_time key key_flat key_flat_colon keys.
Proof. exact (loader_lists_of _ key_time key key_flat key_flat_colon keys). Qed.

Lemma load_chords_lists_of (chords : list ChordAnnotation) :
  load_chords_lists chords
  = lists_of chord_time chord (fun s => s) (fun s => s) chords.
Proof.
  exact (loader_lists_of _ chord_time chord (fun s => s) (fun s => s) chords).
Qed.

(** ** Rows and their boundaries *)

Lemma combine_rows_from (bs : list Z) :
  forall a T, combine (a :: bs) (map (fun b => b - 1) bs ++ [T]) = rows_from a bs T.
Proof.
  induction bs as [|b r IH]; intros a T; [reflexivity|].
  cbn [map app rows_from]. rewrite <- IH. reflexivity.
Qed.

(** *** The conversion to float *)

Lemma round_half_even_bounds (a d : Z) :
  0 < d -> a / d <= round_half_even a d <= a / d + 1.
Proof.
  intros Hd. unfold round_half_even.
  destruct (2 * (a mod d) <? d); [lia|].
  destruct (d <? 2 * (a mod d)); [lia|].
  destruct (Z.even (a / d)); lia.
Qed.

Lemma round_half_even_multiple (k d : Z) :
  0 < d -> round_half_even (k * d) d = k.
Proof.
  intros Hd. unfold round_half_even.
  rewrite Z.mod_mul by lia. rewrite Z.div_mul by lia.
  replace (2 * 0 <? d) with true by (symmetry; apply Z.ltb_lt; lia).
  reflexivity.
Qed.

Lemma round_half_even_mono (a b d : Z) :
  0 < d -> a <= b -> round_half_even a d <= round_half_even b d.
Proof.
  intros Hd Hab.
  pose proof (Z.div_le_mono a b d Hd Hab) as Hq.
  destruct (Z.eq_dec (a / d) (b / d)) as [E|E].
  - assert (Hr : a mod d <= b mod d).
    { pose proof (Z.div_mod a d ltac:(lia)). pose proof (Z.div_mod b d ltac:(lia)).
      rewrite E in *. nia. }
    unfold round_half_even. rewrite E.
    destruct (2 * (a mod d) <? d) eqn:A1.
    + destruct (2 * (b mod d) <? d); [lia|].
      destruct (d <? 2 * (b mod d)); [lia|]. destruct (Z.even (b / d)); lia.
    + apply Z.ltb_ge in A1.
      replace (2 * (b mod d) <? d) with false by (symmetry; apply Z.ltb_ge; lia).
      destruct (d <? 2 * (a mod d)) eqn:A2.
      * apply Z.ltb_lt in A2.
        replace (d <? 2 * (b mod d)) with true by (symmetry; apply Z.ltb_lt; lia).
        lia.
      * destruct (d <? 2 * (b mod d)); destruct (Z.even (b / d)); lia.
  - pose proof (round_half_even_bounds a d Hd).
    pose proof (round_half_even_bounds b d Hd). lia.
Qed.

(** The conversion of positive integers keeps their order: within one
    binade by the rounding, across binades through the power of two between
    them, which the rounding keeps. *)
Lemma float_of_positive_mono (a b : Z) :
  0 < a -> a <= b ->
  2 ^ Z.max 0 (Z.log2 a - 52) * round_half_even a (2 ^ Z.max 0 (Z.log2 a - 52))
  <= 2 ^ Z.max 0 (Z.log2 b - 52) * round_half_even b (2 ^ Z.max 0 (Z.log2 b - 52)).
Proof.
  intros Ha Hab.
  pose proof (Z.log2_le_mono a b Hab) as HL.
  pose proof (Z.log2_nonneg a) as HLa.
  destruct (Z.eq_dec (Z.log2 a) (Z.log2 b)) as [E|E].
  - rewrite E.
    apply Z.mul_le_mono_nonneg_l; [apply Z.pow_nonneg; lia|].
    apply round_half_even_mono; [apply Z.pow_pos_nonneg; lia | exact Hab].
  - set (sa := Z.max 0 (Z.log2 a - 52)). set (sb := Z.max 0 (Z.log2 b - 52)).
    set (L := Z.log2 a) in *.
    destruct (Z.log2_spec a Ha) as [_ Hup]. fold L in Hup.
    destruct (Z.log2_spec b ltac:(lia)) as [Hlow _].
    assert (Hsa : 0 <= sa <= Z.succ L) by (subst sa; lia).
    assert (Hsb : 0 <= sb <= Z.log2 b) by (subst sb; lia).
    assert (Hpa : 0 < 2 ^ sa) by (apply Z.pow_pos_nonneg; lia).
    assert (Hpb : 0 < 2 ^ sb) by (apply Z.pow_pos_nonneg; lia).
    assert (Ea : 2 ^ Z.succ L = 2 ^ (Z.succ L - sa) * 2 ^ sa).
    { rewrite <- Z.pow_add_r by lia. f_equal. lia. }
    assert (Eb : 2 ^ Z.log2 b = 2 ^ (Z.log2 b - sb) * 2 ^ sb).
    { rewrite <- Z.pow_add_r by lia. f_equal. lia. }
    assert (H1 : 2 ^ sa * round_half_even a (2 ^ sa) <= 2 ^ Z.succ L).
    { pose proof (round_half_even_mono a (2 ^ Z.succ L) (2 ^ sa) Hpa ltac:(lia)) as H.
      rewrite Ea in H at 1. rewrite round_half_even_multiple in H by exact Hpa.
      rewrite Ea. rewrite (Z.mul_comm (2 ^ (Z.succ L - sa))).
      apply Z.mul_le_mono_nonneg_l; [lia | exact H]. }
    assert (H2 : 2 ^ Z.log2 b <= 2 ^ sb * round_half_even b (2 ^ sb)).
    { pose proof (round_half_even_mono (2 ^ Z.log2 b) b (2 ^ sb) Hpb ltac:(lia)) as H.
      rewrite Eb in H at 1. rewrite round_half_even_multiple in H by exact Hpb.
      rewrite Eb at 1. rewrite (Z.mul_comm (2 ^ (Z.log2 b - sb))).
      apply Z.mul_le_mono_nonneg_l; [lia | exact H]. }
    assert (H3 : 2 ^ Z.succ L <= 2 ^ Z.log2 b) by (apply Z.pow_le_mono_r; lia).
    lia.
Qed.

Lemma float_of_nonnegative (a : Z) :
  0 <= a ->
  0 <= 2 ^ Z.max 0 (Z.log2 a - 52) * round_half_even a (2 ^ Z.max 0 (Z.log2 a - 52)).
Proof.
  intros Ha.
  assert (Hp : 0 < 2 ^ Z.max 0 (Z.log2 a - 52)) by (apply Z.pow_pos_nonneg; lia).
  pose proof (round_half_even_bounds a _ Hp). pose proof (Z.div_pos a _ Ha Hp). nia.
Qed.

(** [float] keeps the order of integers. *)
Lemma float_of_int_mono (n m : Z) : n <= m -> float_of_int n <= float_of_int m.
Proof.
  intros H. unfold float_of_int.
  pose proof (float_of_nonnegative (Z.abs n) (Z.abs_nonneg n)) as Hn.
  pose proof (float_of_nonnegative (Z.abs m) (Z.abs_nonneg m)) as Hm.
  destruct (Z.sgn_spec n) as [[Hn0 ->]|[[Hn0 ->]|[Hn0 ->]]];
  destruct (Z.sgn_spec m) as [[Hm0 ->]|[[Hm0 ->]|[Hm0 ->]]]; try lia.
  - pose proof (float_of_positive_mono (Z.abs n) (Z.abs m) ltac:(lia) ltac:(lia)). lia.
  - pose proof (float_of_positive_mono (Z.abs m) (Z.abs n) ltac:(lia) ltac:(lia)). lia.
Qed.

(** [float] keeps the integers of at most 53 bits, and [2 ^ 53]. *)
Lemma float_of_int_exact (n : Z) :
  - 2 ^ 53 <= n <= 2 ^ 53 -> float_of_int n = n.
Proof.
  intros H.
  destruct (Z.eq_dec (Z.abs n) (2 ^ 53)) as [E|E].
  - assert (Hn : n = 2 ^ 53 \/ n = - 2 ^ 53) by lia.
    destruct Hn as [-> | ->]; reflexivity.
  - unfold float_of_int.
    assert (Hs : Z.max 0 (Z.log2 (Z.abs n) - 52) = 0).
    { destruct (Z.eq_dec n 0) as [->|Hz]; [reflexivity|].
      assert (Z.log2 (Z.abs n) < 53) by (apply Z.log2_lt_pow2; lia). lia. }
    rewrite Hs. change (2 ^ 0) with 1.
    unfold round_half_even. rewrite Z.mod_1_r, Z.div_1_r.
    change (2 * 0 <? 1) with true. cbv iota.
    rewrite Z.mul_1_l. lia.
Qed.

Lemma combine_float (row0 row1 : list Z) :
  combine (map float_of_int row0) (map float_of_int row1)
  = float_rows (combine row0 row1).
Proof.
  revert row1. induction row0 as [|a r IH]; intros [|b row1]; try reflexivity.
  cbn [map combine]. rewrite IH. reflexivity.
Qed.

Lemma length_float_rows (rows : list (Z * Z)) :
  List.length (float_rows rows) = List.length rows.
Proof. apply length_map. Qed.

Lemma map_fst_float_rows (rows : list (Z * Z)) :
  map fst (float_rows rows) = map float_of_int (map fst rows).
Proof. unfold float_rows. rewrite !map_map. reflexivity. Qed.

Lemma map_snd_float_rows (rows : list (Z * Z)) :
  map snd (float_rows rows) = map float_of_int (map snd rows).
Proof. unfold float_rows. rewrite !map_map. reflexivity. Qed.

Lemma float_rows_exact (rows : list (Z * Z)) :
  Forall (fun row => - 2 ^ 53 <= fst row <= 2 ^ 53 /\
                     - 2 ^ 53 <= snd row <= 2 ^ 53) rows ->
  float_rows rows = rows.
Proof.
  induction 1 as [|[a b] rows [Ha Hb] _ IH]; [reflexivity|].
  cbn [float_rows map fst snd] in *. fold (float_rows rows). rewrite IH.
  rewrite (float_of_int_exact a Ha), (float_of_int_exact b Hb). reflexivity.
Qed.

Lemma small_ticks_Forall (ts : list Z) :
  small_ticks ts = true <-> Forall (fun t => - 2 ^ 53 < t <= 2 ^ 53) ts.
Proof.
  unfold small_ticks. rewrite forallb_forall, Forall_forall.
  split; intros H t Hin; specialize (H t Hin).
  - apply andb_true_iff in H. rewrite Z.ltb_lt, Z.leb_le in H. exact H.
  - apply andb_true_iff. rewrite Z.ltb_lt, Z.leb_le. exact H.
Qed.

(** The rows between small boundaries are kept by the conversion. *)
Lemma float_rows_from_small (bs : list Z) :
  forall a T,
    - 2 ^ 53 <= a <= 2 ^ 53 ->
    Forall (fun t => - 2 ^ 53 < t <= 2 ^ 53) bs ->
    - 2 ^ 53 <= T <= 2 ^ 53 ->
    float_rows (rows_from a bs T) = rows_from a bs T.
Proof.
  intros a T Ha Hbs HT. apply float_rows_exact.
  revert a Ha. induction Hbs as [|b r Hb _ IH]; intros a Ha; cbn [rows_from].
  - repeat constructor; cbn [fst snd]; lia.
  - constructor; [cbn [fst snd]; lia|]. apply IH. lia.
Qed.

Lemma np_array_T_rows (a : Z) (bs : list Z) (T : Z) :
  np_array_T (a :: bs) (map (fun b => b - 1) bs ++ [T])
  = Ok (float_rows (rows_from a bs T)).
Proof.
  unfold np_array_T.
  replace (List.length (map (fun b => b - 1) bs ++ [T])) with (List.length (a :: bs))
    by (rewrite length_app, length_map; simpl; lia).
  rewrite Nat.eqb_refl, combine_float, combine_rows_from. reflexivity.
Qed.

Lemma np_array_T_lists (B : Type) (time : B -> Z) (o : list B) (T : Z) :
  np_array_T (0 :: map time o) (map (fun k => time k - 1) o ++ [T])
  = Ok (float_rows (rows_from 0 (map time o) T)).
Proof. rewrite <- np_array_T_rows, map_map. reflexivity. Qed.

Lemma length_rows_from (bs : list Z) :
  forall a T, List.length (rows_from a bs T) = S (List.length bs).
Proof.
  induction bs as [|b r IH]; intros a T; [reflexivity|].
  cbn [rows_from List.length]. rewrite IH. reflexivity.
Qed.

Lemma map_fst_rows_from (bs : list Z) :
  forall a T, map fst (rows_from a bs T) = a :: bs.
Proof.
  induction bs as [|b r IH]; intros a T; [reflexivity|].
  cbn [rows_from map fst]. rewrite IH. reflexivity.
Qed.

Lemma chain_starts (bs : list Z) :
  forall a T, chain a bs T -> Forall (fun row => a <= fst row) (rows_from a bs T).
Proof.
  induction bs as [|b r IH]; intros a T H.
  - repeat constructor. simpl. lia.
  - destruct H as [Hab H]. cbn [rows_from]. constructor; [simpl; lia|].
    eapply Forall_impl; [|apply IH, H]. intros row Hrow. simpl in Hrow. lia.
Qed.

Lemma chain_nondecreasing (bs : list Z) :
  forall a T, chain a bs T -> nondecreasing (a :: bs) = true.
Proof.
  induction bs as [|b r IH]; intros a T H; [reflexivity|].
  destruct H as [Hab H]. change (((a <=? b) && nondecreasing (b :: r))%bool = true).
  rewrite (IH _ _ H), andb_true_r. apply Z.leb_le, Hab.
Qed.

Lemma chain_disjoint (bs : list Z) :
  forall a T, chain a bs T ->
    ForallOrdPairs (fun r1 r2 => snd r1 < fst r2) (rows_from a bs T).
Proof.
  induction bs as [|b r IH]; intros a T H.
  - repeat constructor.
  - destruct H as [Hab H]. cbn [rows_from]. constructor; [|apply IH, H].
    eapply Forall_impl; [|apply chain_starts, H].
    intros row Hrow. simpl in *. lia.
Qed.

Lemma covering_below (bs : list Z) :
  forall a T t, chain a bs T -> t < a -> covering t (rows_from a bs T) = 0%nat.
Proof.
  induction bs as [|b r IH]; intros a T t H Ht; unfold covering, within in *.
  - simpl. replace (a <=? t) with false by (symmetry; apply Z.leb_gt; lia).
    reflexivity.
  - destruct H as [Hab H]. cbn [rows_from filter fst snd].
    replace (a <=? t) with false by (symmetry; apply Z.leb_gt; lia).
    cbn [andb]. apply IH; [exact H | lia].
Qed.

Lemma covering_inside (bs : list Z) :
  forall a T t, chain a bs T -> a <= t <= T -> covering t (rows_from a bs T) = 1%nat.
Proof.
  induction bs as [|b r IH]; intros a T t H Ht.
  - unfold covering, within. simpl.
    replace (a <=? t) with true by (symmetry; apply Z.leb_le; lia).
    replace (t <=? T) with true by (symmetry; apply Z.leb_le; lia).
    reflexivity.
  - destruct H as [Hab H]. destruct (Z_lt_le_dec t b) as [Hlt|Hge].
    + pose proof (covering_below r b T t H Hlt) as H0.
      unfold covering, within in *. cbn [rows_from filter fst snd].
      replace (a <=? t) with true by (symmetry; apply Z.leb_le; lia).
      replace (t <=? b - 1) with true by (symmetry; apply Z.leb_le; lia).
      cbn [andb List.length]. rewrite H0. reflexivity.
    + pose proof (IH b T t H (conj Hge (proj2 Ht))) as H1.
      unfold covering, within in *. cbn [rows_from filter fst snd].
      replace (t <=? b - 1) with false by (symmetry; apply Z.leb_gt; lia).
      rewrite andb_false_r. exact H1.
Qed.

(** ** Sorted times *)

Lemma nondecreasing_cons (a b : Z) (l : list Z) :
  nondecreasing (a :: b :: l) = true <-> a <= b /\ nondecreasing (b :: l) = true.
Proof.
  change (nondecreasing (a :: b :: l))
    with ((a <=? b) && nondecreasing (b :: l))%bool.
  rewrite andb_true_iff, Z.leb_le. reflexivity.
Qed.

Lemma nondecreasing_tail (a : Z) (l : list Z) :
  nondecreasing (a :: l) = true -> nondecreasing l = true.
Proof.
  destruct l as [|b l]; [reflexivity|].
  intros H. apply nondecreasing_cons in H. apply H.
Qed.

Lemma nondecreasing_head (l : list Z) :
  forall a, nondecreasing (a :: l) = true -> Forall (fun x => a <= x) l.
Proof.
  induction l as [|b l IH]; intros a H; constructor.
  - apply nondecreasing_cons in H. apply H.
  - apply nondecreasing_cons in H. destruct H as [Hab H].
    eapply Forall_impl; [|apply IH, H]. simpl. intros; lia.
Qed.

Lemma last_in (B : Type) (l : list B) :
  forall a d, In (last (a :: l) d) (a :: l).
Proof.
  induction l as [|b l IH]; intros a d; [left; reflexivity|].
  right. change (last (a :: b :: l) d) with (last (b :: l) d). apply IH.
Qed.

Lemma nondecreasing_last (l : list Z) :
  forall d x, nondecreasing l = true -> In x l -> x <= last l d.
Proof.
  induction l as [|a l IH]; intros d x H Hin; [destruct Hin|].
  destruct l as [|b l].
  - destruct Hin as [->|[]]. simpl. lia.
  - change (last (a :: b :: l) d) with (last (b :: l) d).
    destruct Hin as [->|Hin].
    + pose proof (nondecreasing_head _ _ H) as Hall.
      rewrite Forall_forall in Hall. apply Hall, last_in.
    + apply IH; [apply (nondecreasing_tail _ _ H) | exact Hin].
Qed.

Lemma last_map_default (B C : Type) (f : B -> C) (l : list B) (d : B) :
  last (map f l) (f d) = f (last l d).
Proof.
  revert d. induction l as [|a l IH]; intros d; [reflexivity|].
  cbn [map]. rewrite !last_cons_default. apply IH.
Qed.

(** ** The intervals a loader opens *)

Section OpenerFacts.

Variable A : Type.
Variable time : A -> Z.
Variable raw : A -> string.
Variables compared stored : string -> string.

Lemma openers_chain (l : list A) :
  forall (p : string) (a d : Z),
    a <= d -> nondecreasing (d :: map time l) = true ->
    chain a (map time (openers raw compared stored p l)) (last (map time l) d).
Proof.
  induction l as [|k r IH]; intros p a d Had H; [exact Had|].
  cbn [map] in *. rewrite last_cons_default.
  apply nondecreasing_cons in H. destruct H as [Hdk H].
  assert (Hk : nondecreasing (time k :: time k :: map time r) = true).
  { apply nondecreasing_cons. split; [lia | exact H]. }
  cbn [openers]. destruct (String.eqb (compared (raw k)) p).
  - apply IH; [lia | exact H].
  - cbn [map chain]. split; [lia|]. apply IH; [lia | exact H].
Qed.

Lemma openers_in (l : list A) :
  forall p k, In k (openers raw compared stored p l) -> In k l.
Proof.
  induction l as [|a r IH]; intros p k H; [exact H|].
  cbn [openers] in H. destruct (String.eqb (compared (raw a)) p).
  - right. eapply IH, H.
  - destruct H as [->|H]; [left; reflexivity | right; eapply IH, H].
Qed.

(** Sorted, non-negative times put the boundaries of the rows in order. *)
Lemma boundaries_chain (k0 : A) (r : list A) :
  0 <= time k0 ->
  nondecreasing (map time (k0 :: r)) = true ->
  chain 0 (map time (openers raw compared stored (compared (raw k0)) (k0 :: r)))
        (time (last (k0 :: r) k0)).
Proof.
  intros H0 H. rewrite <- last_map_default.
  apply openers_chain; [exact H0|].
  cbn [map] in *. apply nondecreasing_cons. split; [lia | exact H].
Qed.

Lemma time_in_range (k0 : A) (r : list A) (k : A) :
  0 <= time k0 ->
  nondecreasing (map time (k0 :: r)) = true ->
  In k (k0 :: r) ->
  0 <= time k <= time (last (k0 :: r) k0).
Proof.
  intros H0 H Hin. split.
  - destruct Hin as [->|Hin]; [exact H0|].
    cbn [map] in H. pose proof (nondecreasing_head _ _ H) as Hall.
    rewrite Forall_forall in Hall.
    specialize (Hall (time k) (in_map time _ _ Hin)). lia.
  - rewrite <- last_map_default.
    apply nondecreasing_last; [exact H | apply in_map, Hin].
Qed.

End OpenerFacts.

(** ** What the loaders return *)

Lemma load_key_rows (k0 : KeyAnnotation) (r : list KeyAnnotation) :
  load_key (k0 :: r)
  = Ok (mkKeyData
          (float_rows
             (rows_from 0 (map key_time (key_openers (key_flat (key k0)) (k0 :: r)))
                        (key_time (last (k0 :: r) k0))))
          "ticks"
          (key_flat (key k0)
             :: map (fun k => key_flat_colon (key k))
                    (key_openers (key_flat (key k0)) (k0 :: r)))
          "key_mode").
Proof.
  unfold load_key. rewrite load_key_lists_of. unfold lists_of. cbn [bind].
  rewrite np_array_T_lists. reflexivity.
Qed.

Lemma load_chords_rows (k0 : ChordAnnotation) (r : list ChordAnnotation) :
  load_chords (k0 :: r)
  = Ok (mkChordData
          (float_rows
             (rows_from 0 (map chord_time (chord_openers (chord k0) (k0 :: r)))
                        (chord_time (last (k0 :: r) k0))))
          "ticks"
          (chord k0 :: map chord (chord_openers (chord k0) (k0 :: r)))
          "open").
Proof.
  unfold load_chords. rewrite load_chords_lists_of. unfold lists_of. cbn [bind].
  rewrite np_array_T_lists. reflexivity.
Qed.

Lemma nonnegative_head (a : Z) (l : list Z) : nonnegative (a :: l) = true -> 0 <= a.
Proof.
  unfold nonnegative. cbn [forallb]. rewrite andb_true_iff, Z.leb_le. tauto.
Qed.

(** ** Failure on the empty list, and only there *)




(** ** The first start time *)

(** C5: for every non-empty annotation list, whatever the time of its first
    annotation, the first interval either loader returns starts at tick 0. *)
Theorem first_start_time_is_zero :
  (forall keys, keys <> [] ->
     exists kd, load_key keys = Ok kd /\
       hd_error (map fst (kd_intervals kd)) = Some 0) /\
  (forall chords, chords <> [] ->
     exists cd, load_chords chords = Ok cd /\
       hd_error (map fst (cd_intervals cd)) = Some 0).
Proof.
  split.
  - intros [|k0 r] H; [contradiction|]. eexists. split; [apply load_key_rows|].
    cbn [kd_intervals]. rewrite map_fst_float_rows, map_fst_rows_from. reflexivity.
  - intros [|k0 r] H; [contradiction|]. eexists. split; [apply load_chords_rows|].
    cbn [cd_intervals]. rewrite map_fst_float_rows, map_fst_rows_from. reflexivity.
Qed.

Lemma first_start_time_is_zero_witness :
  (exists kd, load_key [mkKey 12 "C major"; mkKey 40 "G major"] = Ok kd /\
     hd_error (map fst (kd_intervals kd)) = Some 0) /\
  (exists cd, load_chords [mkChord 12 "C"; mkChord 40 "G"] = Ok cd /\
     hd_error (map fst (cd_intervals cd)) = Some 0).
Proof.
  split.
  - apply (proj1 first_start_time_is_zero). discriminate.
  - apply (proj2 first_start_time_is_zero). discriminate.
Defined.

(** ** One row per label *)

(** C10: for every non-empty annotation list, the lists of start times, end
    times and names a loader has built at its [return] have one length, so
    the interval array, whose rows are the start and end times converted to
    float, has exactly one row per label. *)
Theorem one_row_per_label :
  (forall keys, keys <> [] ->
     exists start_times end_times key_names,
       load_key_lists keys = Ok (start_times, end_times, key_names) /\
       List.length start_times = List.length end_times /\
       List.length end_times = List.length key_names /\
       load_key keys
       = Ok (mkKeyData
               (combine (map float_of_int start_times) (map float_of_int end_times))
               "ticks" key_names "key_mode") /\
       List.length (combine (map float_of_int start_times) (map float_of_int end_times))
       = List.length key_names) /\
  (forall chords, chords <> [] ->
     exists start_times end_times chord_names,
       load_chords_lists chords = Ok (start_times, end_times, chord_names) /\
       List.length start_times = List.length end_times /\
       List.length end_times = List.length chord_names /\
       load_chords chords
       = Ok (mkChordData
               (combine (map float_of_int start_times) (map float_of_int end_times))
               "ticks" chord_names "open") /\
       List.length (combine (map float_of_int start_times) (map float_of_int end_times))
       = List.length chord_names).
Proof.
  split.
  - intros [|k0 r] H; [contradiction|].
    unfold load_key. rewrite load_key_lists_of. unfold lists_of.
    do 3 eexists. split; [reflexivity|]. cbn [bind].
    assert (E : forall o : list KeyAnnotation,
               List.length (map (fun k => key_time k - 1) o ++ [key_time (last (k0 :: r) k0)])
               = List.length (0 :: map key_time o)).
    { intros o. rewrite length_app. cbn [List.length]. rewrite !length_map. lia. }
    repeat split.
    + symmetry. apply E.
    + rewrite E. cbn [List.length]. rewrite !length_map. reflexivity.
    + unfold np_array_T. rewrite E, Nat.eqb_refl. reflexivity.
    + rewrite length_combine, !length_map, E, Nat.min_id. cbn [List.length].
      rewrite !length_map. reflexivity.
  - intros [|k0 r] H; [contradiction|].
    unfold load_chords. rewrite load_chords_lists_of. unfold lists_of.
    do 3 eexists. split; [reflexivity|]. cbn [bind].
    assert (E : forall o : list ChordAnnotation,
               List.length (map (fun k => chord_time k - 1) o ++ [chord_time (last (k0 :: r) k0)])
               = List.length (0 :: map chord_time o)).
    { intros o. rewrite length_app. cbn [List.length]. rewrite !length_map. lia. }
    repeat split.
    + symmetry. apply E.
    + rewrite E. cbn [List.length]. rewrite !length_map. reflexivity.
    + unfold np_array_T. rewrite E, Nat.eqb_refl. reflexivity.
    + rewrite length_combine, !length_map, E, Nat.min_id. cbn [List.length].
      rewrite !length_map. reflexivity.
Qed.

Lemma one_row_per_label_witness :
  (exists start_times end_times key_names,
     load_key_lists [mkKey 0 "C major"; mkKey 5 "G major"; mkKey 10 "G major"]
     = Ok (start_times, end_times, key_names) /\
     List.length start_times = List.length end_times /\
     List.length end_times = List.length key_names /\
     load_key [mkKey 0 "C major"; mkKey 5 "G major"; mkKey 10 "G major"]
     = Ok (mkKeyData
             (combine (map float_of_int start_times) (map float_of_int end_times))
             "ticks" key_names "key_mode") /\
     List.length (combine (map float_of_int start_times) (map float_of_int end_times))
     = List.length key_names) /\
  (exists start_times end_times chord_names,
     load_chords_lists [mkChord 0 "C"; mkChord 5 "G"]
     = Ok (start_times, end_times, chord_names) /\
     List.length start_times = List.length end_times /\
     List.length end_times = List.length chord_names /\
     load_chords [mkChord 0 "C"; mkChord 5 "G"]
     = Ok (mkChordData
             (combine (map float_of_int start_times) (map float_of_int end_times))
             "ticks" chord_names "open") /\
     List.length (combine (map float_of_int start_times) (map float_of_int end_times))
     = List.length chord_names).
Proof.
  split.
  - apply (proj1 one_row_per_label). discriminate.
  - apply (proj2 one_row_per_label). discriminate.
Defined.

(** ** Coverage and order of the intervals *)

(** With small ticks the conversion to float keeps every row. *)
Lemma small_rows_kept (B : Type) (time : B -> Z) (raw : B -> string)
    (compared stored : string -> string) (k0 : B) (r : list B) :
  small_ticks (map time (k0 :: r)) = true ->
  float_rows
    (rows_from 0
       (map time (openers raw compared stored (compared (raw k0)) (k0 :: r)))
       (time (last (k0 :: r) k0)))
  = rows_from 0
      (map time (openers raw compared stored (compared (raw k0)) (k0 :: r)))
      (time (last (k0 :: r) k0)).
Proof.
  intros Hsmall. apply small_ticks_Forall in Hsmall.
  rewrite Forall_forall in Hsmall.
  apply float_rows_from_small.
  - lia.
  - apply Forall_forall. intros t Hin. apply Hsmall.
    apply in_map_iff in Hin. destruct Hin as (k & <- & Hin).
    apply in_map. eapply openers_in, Hin.
  - assert (H : - 2 ^ 53 < time (last (k0 :: r) k0) <= 2 ^ 53)
      by (apply Hsmall, in_map, last_in).
    lia.
Qed.

Lemma load_key_small_rows (k0 : KeyAnnotation) (r : list KeyAnnotation) :
  small_ticks (map key_time (k0 :: r)) = true ->
  load_key (k0 :: r)
  = Ok (mkKeyData
          (rows_from 0 (map key_time (key_openers (key_flat (key k0)) (k0 :: r)))
                     (key_time (last (k0 :: r) k0)))
          "ticks"
          (key_flat (key k0)
             :: map (fun k => key_flat_colon (key k))
                    (key_openers (key_flat (key k0)) (k0 :: r)))
          "key_mode").
Proof.
  intros H. rewrite load_key_rows. unfold key_openers.
  rewrite (small_rows_kept _ key_time key key_flat key_flat_colon k0 r H).
  reflexivity.
Qed.

Lemma load_chords_small_rows (k0 : ChordAnnotation) (r : list ChordAnnotation) :
  small_ticks (map chord_time (k0 :: r)) = true ->
  load_chords (k0 :: r)
  = Ok (mkChordData
          (rows_from 0 (map chord_time (chord_openers (chord k0) (k0 :: r)))
                     (chord_time (last (k0 :: r) k0)))
          "ticks"
          (chord k0 :: map chord (chord_openers (chord k0) (k0 :: r)))
          "open").
Proof.
  intros H. rewrite load_chords_rows. unfold chord_openers.
  rewrite (small_rows_kept _ chord_time chord (fun s => s) (fun s => s) k0 r H).
  reflexivity.
Qed.

(** C4, as the loaders have it: for every non-empty annotation list with
    ticks from 0 to [2 ^ 53] in non-decreasing order, the time of every
    annotation lies in the inclusive range of exactly one row of the
    interval array, for either loader.  The bound keeps the end times exact
    in the float array. *)
Theorem every_time_in_exactly_one_interval :
  (forall keys, keys <> [] ->
     nonnegative (map key_time keys) = true ->
     nondecreasing (map key_time keys) = true ->
     small_ticks (map key_time keys) = true ->
     exists kd, load_key keys = Ok kd /\
       forall k, In k keys -> covering (key_time k) (kd_intervals kd) = 1%nat) /\
  (forall chords, chords <> [] ->
     nonnegative (map chord_time chords) = true ->
     nondecreasing (map chord_time chords) = true ->
     small_ticks (map chord_time chords) = true ->
     exists cd, load_chords chords = Ok cd /\
       forall k, In k chords -> covering (chord_time k) (cd_intervals cd) = 1%nat).
Proof.
  split.
  - intros [|k0 r] H Hpos Hsort Hsmall; [contradiction|].
    apply nonnegative_head in Hpos.
    eexists. split; [apply load_key_small_rows, Hsmall|].
    intros k Hin. cbn [kd_intervals].
    apply covering_inside.
    + apply boundaries_chain; assumption.
    + apply time_in_range; assumption.
  - intros [|k0 r] H Hpos Hsort Hsmall; [contradiction|].
    apply nonnegative_head in Hpos.
    eexists. split; [apply load_chords_small_rows, Hsmall|].
    intros k Hin. cbn [cd_intervals].
    apply covering_inside.
    + apply (boundaries_chain _ chord_time); assumption.
    + apply time_in_range; assumption.
Qed.

Lemma every_time_in_exactly_one_interval_witness :
  (exists kd,
     load_key [mkKey 0 "C major"; mkKey 5 "C major"; mkKey 5 "G major"; mkKey 9 "G major"]
     = Ok kd /\
     forall k,
       In k [mkKey 0 "C major"; mkKey 5 "C major"; mkKey 5 "G major"; mkKey 9 "G major"] ->
       covering (key_time k) (kd_intervals kd) = 1%nat) /\
  (exists cd,
     load_chords [mkChord 0 "C"; mkChord 5 "C"; mkChord 6 "G"; mkChord 20 "G"] = Ok cd /\
     forall k,
       In k [mkChord 0 "C"; mkChord 5 "C"; mkChord 6 "G"; mkChord 20 "G"] ->
       covering (chord_time k) (cd_intervals cd) = 1%nat).
Proof.
  split.
  - apply (proj1 every_time_in_exactly_one_interval);
      [discriminate | reflexivity | reflexivity | reflexivity].
  - apply (proj2 every_time_in_exactly_one_interval);
      [discriminate | reflexivity | reflexivity | reflexivity].
Defined.

(** C4, as the specification states it, fails above [2 ^ 53]: for the chords
    C at tick 0 and G at tick [2 ^ 53 + 4], in order and non-negative, the
    end of the first row, [2 ^ 53 + 3], becomes [2 ^ 53 + 4] as a float, and
    the time of the second annotation lies in both rows. *)
Lemma time_in_two_intervals_above_2_53 :
  nonnegative (map chord_time [mkChord 0 "C"; mkChord 9007199254740996 "G"]) = true /\
  nondecreasing (map chord_time [mkChord 0 "C"; mkChord 9007199254740996 "G"]) = true /\
  exists cd,
    load_chords [mkChord 0 "C"; mkChord 9007199254740996 "G"] = Ok cd /\
    cd_intervals cd
    = [(0, 9007199254740996); (9007199254740996, 9007199254740996)] /\
    covering (chord_time (mkChord 9007199254740996 "G")) (cd_intervals cd) = 2%nat.
Proof.
  split; [reflexivity|]. split; [reflexivity|].
  eexists. split; [vm_compute; reflexivity|]. split; reflexivity.
Qed.




(** ** The groups of annotations behind the intervals *)

Lemma rows_from_end (bs : list Z) :
  forall a T i row b,
    nth_error (rows_from a bs T) i = Some row ->
    nth_error bs i = Some b ->
    snd row = b - 1.
Proof.
  induction bs as [|b0 r IH]; intros a T i row b Hrow Hb.
  - destruct i; discriminate.
  - destruct i as [|i]; cbn [rows_from nth_error] in *.
    + injection Hrow as <-. injection Hb as <-. reflexivity.
    + eapply IH; eassumption.
Qed.

Section GroupFacts.

Variable A : Type.
Variable time : A -> Z.
Variable raw : A -> string.
Variables compared stored : string -> string.

Let whole (kg : A * list A) : list A := fst kg :: snd kg.
Let groups' := groups raw compared stored.

Lemma groups_openers (l : list A) :
  forall p, map fst (snd (groups' p l)) = openers raw compared stored p l.
Proof.
  subst groups'.
  induction l as [|k r IH]; intros p; [reflexivity|].
  cbn [groups openers]. destruct (String.eqb (compared (raw k)) p).
  - specialize (IH p). destruct (groups raw compared stored p r). exact IH.
  - specialize (IH (stored (raw k))).
    destruct (groups raw compared stored (stored (raw k)) r).
    cbn [snd map fst] in *. rewrite IH. reflexivity.
Qed.

Lemma groups_concat (l : list A) :
  forall p, fst (groups' p l) ++ List.concat (map whole (snd (groups' p l))) = l.
Proof.
  subst groups' whole.
  induction l as [|k r IH]; intros p; [reflexivity|].
  cbn [groups]. destruct (String.eqb (compared (raw k)) p).
  - specialize (IH p). destruct (groups raw compared stored p r).
    cbn [fst snd app] in *. rewrite IH. reflexivity.
  - specialize (IH (stored (raw k))).
    destruct (groups raw compared stored (stored (raw k)) r).
    cbn [fst snd app map List.concat] in *. rewrite IH. reflexivity.
Qed.

Lemma grouping_concat (l : list A) :
  List.concat (grouping raw compared stored l) = l.
Proof.
  destruct l as [|k0 r]; [reflexivity|]. unfold grouping.
  pose proof (groups_concat (k0 :: r) (compared (raw k0))) as H.
  subst groups' whole. destruct (groups raw compared stored _ (k0 :: r)).
  exact H.
Qed.

Lemma grouping_openers (k0 : A) (r : list A) :
  exists g0 gs,
    grouping raw compared stored (k0 :: r) = g0 :: map whole gs /\
    map fst gs = openers raw compared stored (compared (raw k0)) (k0 :: r).
Proof.
  unfold grouping.
  pose proof (groups_openers (k0 :: r) (compared (raw k0))) as H.
  subst groups' whole. destruct (groups raw compared stored _ (k0 :: r)) as [g gs].
  exists g, gs. split; [reflexivity | exact H].
Qed.

(** The row before a group ends one tick before the group's first annotation. *)
Lemma grouping_ends (k0 : A) (r : list A) (T : Z) (i : nat) (row : Z * Z) (g : list A) :
  nth_error
    (rows_from 0 (map time (openers raw compared stored (compared (raw k0)) (k0 :: r))) T)
    i = Some row ->
  nth_error (grouping raw compared stored (k0 :: r)) (S i) = Some g ->
  exists k rest, g = k :: rest /\ snd row = time k - 1.
Proof.
  destruct (grouping_openers k0 r) as (g0 & gs & -> & <-).
  intros Hrow Hg. cbn [nth_error] in Hg.
  rewrite nth_error_map in Hg.
  destruct (nth_error gs i) as [[k rest]|] eqn:E; [|discriminate].
  injection Hg as <-. exists k, rest. split; [reflexivity|].
  eapply rows_from_end; [exact Hrow|].
  rewrite !nth_error_map, E. reflexivity.
Qed.

Lemma grouping_length (k0 : A) (r : list A) (T : Z) :
  List.length (grouping raw compared stored (k0 :: r))
  = List.length
      (rows_from 0 (map time (openers raw compared stored (compared (raw k0)) (k0 :: r))) T).
Proof.
  destruct (grouping_openers k0 r) as (g0 & gs & -> & <-).
  rewrite length_rows_from. cbn [List.length]. rewrite !length_map. reflexivity.
Qed.

End GroupFacts.

(** ** Groups and maximal runs *)

Section RunFacts.

Variable A : Type.
Variable time : A -> Z.
Variable raw : A -> string.
Variables compared stored : string -> string.

Let ev (k : A) : Z * string := (time k, raw k).
Let whole (kg : A * list A) : list A := fst kg :: snd kg.

(** An annotation with the pending label joins the run that follows it. *)
Lemma runs_absorb (k : A) (r g : list A) (gs : list (A * list A)) (q : string) :
  compared (raw k) = q ->
  Forall (fun k' => compared (raw k') = q) g ->
  (forall kg, hd_error gs = Some kg -> compared (raw (fst kg)) <> q) ->
  runs compared (map ev r)
  = first_group (map ev g) ++ map (fun kg => map ev (whole kg)) gs ->
  runs compared (map ev (k :: r))
  = map ev (k :: g) :: map (fun kg => map ev (whole kg)) gs.
Proof.
  intros Hk Hg Hhd Hruns. cbn [map runs]. rewrite Hruns.
  destruct g as [|k' g'].
  - cbn [map first_group app]. destruct gs as [|[k1 g1] gs]; [reflexivity|].
    cbn [map]. subst whole ev. cbn [fst snd map].
    specialize (Hhd (k1, g1) eq_refl). cbn [fst] in Hhd.
    destruct (String.eqb_spec (compared (raw k)) (compared (raw k1))) as [E|E];
      [congruence | reflexivity].
  - cbn [map first_group app]. subst ev. cbn [snd].
    inversion Hg as [|? ? Hk' _]; subst.
    rewrite Hk', String.eqb_refl. reflexivity.
Qed.

Lemma groups_runs (l : list A) :
  Forall (fun k => stored (raw k) = compared (raw k)) l ->
  forall p,
    Forall (fun k => compared (raw k) = p) (fst (groups raw compared stored p l)) /\
    (forall kg, hd_error (snd (groups raw compared stored p l)) = Some kg ->
                compared (raw (fst kg)) <> p) /\
    runs compared (map ev l)
    = first_group (map ev (fst (groups raw compared stored p l)))
        ++ map (fun kg => map ev (whole kg)) (snd (groups raw compared stored p l)).
Proof.
  induction l as [|k r IH]; intros Hall p.
  - cbn. repeat split; [constructor | discriminate].
  - inversion Hall as [|? ? Hk Hr]; subst. specialize (IH Hr).
    cbn [groups]. destruct (String.eqb_spec (compared (raw k)) p) as [E|E].
    + destruct (IH p) as (Hg & Hhd & Hruns).
      destruct (groups raw compared stored p r) as [g gs]. cbn [fst snd] in *.
      repeat split.
      * constructor; assumption.
      * exact Hhd.
      * apply (runs_absorb k r g gs p E Hg Hhd Hruns).
    + rewrite Hk. destruct (IH (compared (raw k))) as (Hg & Hhd & Hruns).
      destruct (groups raw compared stored (compared (raw k)) r) as [g gs].
      cbn [fst snd] in *. repeat split.
      * constructor.
      * intros kg H. injection H as <-. exact E.
      * cbn [map first_group app].
        apply (runs_absorb k r g gs _ eq_refl Hg Hhd Hruns).
Qed.

(** When every name is stored as it is compared, the groups of the loop are
    the maximal runs of equal compared names. *)
Lemma grouping_runs (l : list A) :
  Forall (fun k => stored (raw k) = compared (raw k)) l ->
  map (map ev) (grouping raw compared stored l) = runs compared (map ev l).
Proof.
  intros Hall. destruct l as [|k0 r]; [reflexivity|]. unfold grouping.
  destruct (groups_runs (k0 :: r) Hall (compared (raw k0))) as (_ & _ & Hruns).
  rewrite Hruns. cbn [groups]. rewrite String.eqb_refl.
  destruct (groups raw compared stored (compared (raw k0)) r) as [g gs].
  cbn [fst snd map first_group app]. rewrite map_map. reflexivity.
Qed.

End RunFacts.

Lemma getitem_last_rows_from (bs : list Z) :
  forall a T, getitem_last (map snd (rows_from a bs T)) = Ok T.
Proof.
  induction bs as [|b r IH]; intros a T; [reflexivity|].
  cbn [rows_from map]. specialize (IH b T).
  unfold getitem_last in *. cbn [rev].
  destruct (rev (map snd (rows_from b r T))) as [|x l]; [discriminate|].
  injection IH as ->. reflexivity.
Qed.

Lemma getitem_last_times (B : Type) (time : B -> Z) (k0 : B) (r : list B) :
  getitem_last (map time (k0 :: r)) = Ok (time (last (k0 :: r) k0)).
Proof.
  cbn [map]. rewrite getitem_last_cons. f_equal.
  change (time k0 :: map time r) with (map time (k0 :: r)).
  apply last_map_default.
Qed.

Lemma chord_grouping_runs (chords : list ChordAnnotation) :
  map (map (fun k => (chord_time k, chord k))) (chord_grouping chords)
  = runs (fun s => s) (chord_events chords).
Proof.
  apply (grouping_runs _ chord_time chord (fun s => s) (fun s => s)).
  apply Forall_forall. reflexivity.
Qed.

(** ** The end times *)

Lemma rows_from_adjacent (bs : list Z) :
  forall a T i row next,
    nth_error (rows_from a bs T) i = Some row ->
    nth_error (rows_from a bs T) (S i) = Some next ->
    snd row = fst next - 1.
Proof.
  induction bs as [|b r IH]; intros a T i row next Hrow Hnext.
  - destruct i; discriminate.
  - destruct i as [|i]; cbn [rows_from nth_error] in *.
    + injection Hrow as <-. destruct r; cbn [rows_from nth_error] in Hnext;
        injection Hnext as <-; reflexivity.
    + eapply IH; eassumption.
Qed.

(** X17: for every non-empty annotation list with ticks above [- 2 ^ 53] and
    at most [2 ^ 53], the last interval of either loader ends at the time of
    the last annotation, with nothing subtracted, and every other interval
    ends one tick before the next interval starts; in [load_chords] there is
    one interval per maximal run of equal chord names, and every interval
    but the last ends one tick before the first annotation of the following
    run. *)
Theorem end_times_of_intervals :
  (forall keys, keys <> [] ->
     small_ticks (map key_time keys) = true ->
     exists kd, load_key keys = Ok kd /\
       getitem_last (map snd (kd_intervals kd)) = getitem_last (map key_time keys) /\
       forall i row next,
         nth_error (kd_intervals kd) i = Some row ->
         nth_error (kd_intervals kd) (S i) = Some next ->
         snd row = fst next - 1) /\
  (forall chords, chords <> [] ->
     small_ticks (map chord_time chords) = true ->
     exists cd, load_chords chords = Ok cd /\
       getitem_last (map snd (cd_intervals cd)) = getitem_last (map chord_time chords) /\
       List.length (runs (fun s => s) (chord_events chords))
       = List.length (cd_intervals cd) /\
       forall i row run,
         nth_error (cd_intervals cd) i = Some row ->
         nth_error (runs (fun s => s) (chord_events chords)) (S i) = Some run ->
         exists t l rest, run = (t, l) :: rest /\ snd row = t - 1).
Proof.
  split.
  - intros [|k0 r] H Hsmall; [contradiction|].
    eexists. split; [apply load_key_small_rows, Hsmall|]. cbn [kd_intervals].
    split.
    + rewrite getitem_last_rows_from, getitem_last_times. reflexivity.
    + apply rows_from_adjacent.
  - intros [|k0 r] H Hsmall; [contradiction|].
    eexists. split; [apply load_chords_small_rows, Hsmall|]. cbn [cd_intervals].
    rewrite <- chord_grouping_runs. split; [|split].
    + rewrite getitem_last_rows_from, getitem_last_times. reflexivity.
    + rewrite length_map. apply (grouping_length _ chord_time).
    + intros i row run Hrow Hrun. rewrite nth_error_map in Hrun.
      destruct (nth_error (chord_grouping (k0 :: r)) (S i)) as [g|] eqn:E;
        [|discriminate].
      injection Hrun as <-.
      destruct (grouping_ends _ chord_time chord (fun s => s) (fun s => s)
                  k0 r _ i row g Hrow E) as (k & rest & -> & Hend).
      exists (chord_time k), (chord k), (map (fun k => (chord_time k, chord k)) rest).
      split; [reflexivity | exact Hend].
Qed.

Lemma end_times_of_intervals_witness :
  (exists kd,
     load_key [mkKey 0 "C major"; mkKey 5 "C major"; mkKey 6 "G major"] = Ok kd /\
     getitem_last (map snd (kd_intervals kd))
     = getitem_last (map key_time [mkKey 0 "C major"; mkKey 5 "C major"; mkKey 6 "G major"]) /\
     forall i row next,
       nth_error (kd_intervals kd) i = Some row ->
       nth_error (kd_intervals kd) (S i) = Some next ->
       snd row = fst next - 1) /\
  (exists cd,
     load_chords [mkChord 0 "C"; mkChord 5 "C"; mkChord 6 "G"; mkChord 20 "G"] = Ok cd /\
     getitem_last (map snd (cd_intervals cd))
     = getitem_last (map chord_time [mkChord 0 "C"; mkChord 5 "C"; mkChord 6 "G"; mkChord 20 "G"]) /\
     List.length
       (runs (fun s => s)
          (chord_events [mkChord 0 "C"; mkChord 5 "C"; mkChord 6 "G"; mkChord 20 "G"]))
     = List.length (cd_intervals cd) /\
     forall i row run,
       nth_error (cd_intervals cd) i = Some row ->
       nth_error
         (runs (fun s => s)
            (chord_events [mkChord 0 "C"; mkChord 5 "C"; mkChord 6 "G"; mkChord 20 "G"]))
         (S i) = Some run ->
       exists t l rest, run = (t, l) :: rest /\ snd row = t - 1).
Proof.
  split.
  - apply (proj1 end_times_of_intervals); [discriminate | reflexivity].
  - apply (proj2 end_times_of_intervals); [discriminate | reflexivity].
Defined.

(** The bound on the ticks is needed: for the chords C at tick 0 and G at
    tick [2 ^ 53 + 4], two runs, the first interval is not the last one and
    ends, as a float, at the time of the first annotation of the following
    run, not one tick before it. *)
Example end_time_not_minus_one_above_2_53 :
  runs (fun s => s) (chord_events [mkChord 0 "C"; mkChord 9007199254740996 "G"])
  = [[(0, "C")]; [(9007199254740996, "G")]] /\
  exists cd,
    load_chords [mkChord 0 "C"; mkChord 9007199254740996 "G"] = Ok cd /\
    nth_error (cd_intervals cd) 0 = Some (0, 9007199254740996) /\
    List.length (cd_intervals cd) = 2%nat /\
    9007199254740996 <> 9007199254740996 - 1.
Proof.
  split; [reflexivity|].
  eexists. split; [vm_compute; reflexivity|].
  split; [reflexivity|]. split; [reflexivity | lia].
Qed.

(** ** The names of the key intervals *)

Lemma str_replace_removes (c new : ascii) (s : string) :
  new <> c -> str_contains c (str_replace c new s) = false.
Proof.
  intros Hn. induction s as [|d s IH]; [reflexivity|].
  cbn [str_replace str_contains]. rewrite IH, orb_false_r.
  destruct (Ascii.eqb_spec d c) as [E|E]; apply Ascii.eqb_neq; assumption.
Qed.

Lemma str_replace_keeps (c old new : ascii) (s : string) :
  old <> c -> new <> c ->
  str_contains c (str_replace old new s) = str_contains c s.
Proof.
  intros Ho Hn. induction s as [|d s IH]; [reflexivity|].
  cbn [str_replace str_contains]. rewrite IH. f_equal.
  destruct (Ascii.eqb_spec d old) as [E|E]; [|reflexivity].
  subst d. rewrite (proj2 (Ascii.eqb_neq new c) Hn).
  symmetry. apply Ascii.eqb_neq, Ho.
Qed.

Lemma key_flat_space (s : string) :
  str_contains " " (key_flat s) = str_contains " " s.
Proof. apply str_replace_keeps; discriminate. Qed.

Lemma key_flat_colon_space (s : string) :
  str_contains " " (key_flat_colon s) = false.
Proof. apply str_replace_removes; discriminate. Qed.

(** C9: in [load_key], the first name is the first key string with every
    ["-"] replaced by ["b"] and its spaces kept; every later name is the key
    string of the annotation that opens its interval with, in addition,
    every space replaced by [":"].  So when the first key string holds a
    space, the first name holds one and no later name does: the first name
    differs from every later one, also from the name the same key gets
    later. *)
Theorem first_key_name_keeps_spaces :
  forall k0 rest,
    exists kd,
      load_key (k0 :: rest) = Ok kd /\
      kd_keys kd
      = key_flat (key k0)
          :: map (fun k => key_flat_colon (key k))
                 (key_openers (key_flat (key k0)) (k0 :: rest)) /\
      tl (map fst (kd_intervals kd))
      = map (fun k => float_of_int (key_time k))
            (key_openers (key_flat (key k0)) (k0 :: rest)) /\
      (forall k, In k (key_openers (key_flat (key k0)) (k0 :: rest)) ->
                 In k (k0 :: rest)) /\
      (str_contains " " (key k0) = true ->
         str_contains " " (key_flat (key k0)) = true /\
         Forall (fun name => str_contains " " name = false) (tl (kd_keys kd)) /\
         Forall (fun name => name <> key_flat (key k0)) (tl (kd_keys kd)) /\
         key_flat_colon (key k0) <> key_flat (key k0)).
Proof.
  intros k0 rest. eexists. split; [apply load_key_rows|].
  cbn [kd_keys kd_intervals tl]. split; [reflexivity|].
  split; [rewrite map_fst_float_rows, map_fst_rows_from; cbn [map tl];
          rewrite map_map; reflexivity|].
  split; [intros k; apply openers_in|].
  intros Hsp.
  assert (H0 : str_contains " " (key_flat (key k0)) = true)
    by (rewrite key_flat_space; exact Hsp).
  assert (Hne : forall s, key_flat_colon s <> key_flat (key k0)).
  { intros s E. pose proof (key_flat_colon_space s) as Hs.
    rewrite E, H0 in Hs. discriminate. }
  repeat split.
  - exact H0.
  - apply Forall_map, Forall_forall. intros k _. apply key_flat_colon_space.
  - apply Forall_map, Forall_forall. intros k _. apply Hne.
  - apply Hne.
Qed.

Lemma first_key_name_keeps_spaces_witness :
  exists kd,
    load_key [mkKey 0 "B- major"; mkKey 8 "F major"; mkKey 16 "B- major"] = Ok kd /\
    kd_keys kd = ["Bb major"; "F:major"; "Bb:major"] /\
    Forall (fun name => name <> "Bb major") (tl (kd_keys kd)).
Proof.
  destruct (first_key_name_keeps_spaces
              (mkKey 0 "B- major") [mkKey 8 "F major"; mkKey 16 "B- major"])
    as (kd & Hload & Hkeys & _ & _ & Hsp).
  exists kd. split; [exact Hload|]. split; [exact Hkeys|].
  apply (Hsp eq_refl).
Defined.

(** ** The loaders and the collapser of the specification *)

Section CollapseFacts.

Variable A : Type.
Variable time : A -> Z.
Variable raw : A -> string.
Variables compared stored : string -> string.

Let ev (k : A) : Z * string := (time k, raw k).

Lemma collapse_walk_rows (l : list A) :
  Forall (fun k => stored (raw k) = compared (raw k)) l ->
  forall (pending_start : Z) (pending_label : string) (last_time : Z),
    collapse_walk compared pending_start pending_label last_time (map ev l)
    = labelled
        (rows_from pending_start
           (map time (openers raw compared stored pending_label l))
           (last (map time l) last_time))
        (pending_label
           :: map (fun k => stored (raw k))
                  (openers raw compared stored pending_label l)).
Proof.
  induction l as [|k r IH]; intros Hall ps pl lt; [reflexivity|].
  inversion Hall as [|? ? Hk Hr]; subst. specialize (IH Hr).
  cbn [map]. rewrite last_cons_default. subst ev. cbn [collapse_walk openers].
  destruct (String.eqb (compared (raw k)) pl).
  - apply IH.
  - rewrite IH. unfold labelled. cbn [map rows_from combine fst snd].
    rewrite Hk. reflexivity.
Qed.

(** On sorted times, and when every name is stored as it is compared, the
    rows and names of a loader are the intervals of [collapse]. *)
Lemma collapse_rows (k0 : A) (r : list A) :
  Forall (fun k => stored (raw k) = compared (raw k)) r ->
  nondecreasing (map time (k0 :: r)) = true ->
  collapse compared (map ev (k0 :: r))
  = inr (labelled
           (rows_from 0
              (map time (openers raw compared stored (compared (raw k0)) (k0 :: r)))
              (time (last (k0 :: r) k0)))
           (compared (raw k0)
              :: map (fun k => stored (raw k))
                     (openers raw compared stored (compared (raw k0)) (k0 :: r)))).
Proof.
  intros Hall Hsort.
  assert (Hm : map fst (map ev (k0 :: r)) = map time (k0 :: r))
    by (rewrite map_map; reflexivity).
  unfold collapse. rewrite Hm, Hsort.
  change (map ev (k0 :: r)) with ((time k0, raw k0) :: map ev r). cbv iota.
  rewrite (collapse_walk_rows r Hall). cbn [openers].
  rewrite String.eqb_refl, (last_map_default _ _ time r k0), last_cons_default.
  reflexivity.
Qed.

End CollapseFacts.

Lemma labelled_float_rows (rows : list (Z * Z)) (names : list string) :
  labelled (float_rows rows) names = map float_interval (labelled rows names).
Proof.
  revert names. induction rows as [|row rows IH]; intros [|n names]; try reflexivity.
  unfold labelled, float_rows in *. cbn [map combine fst snd].
  rewrite IH. reflexivity.
Qed.

(** X1: [load_chords] is the collapser applied with the identity, followed by
    the conversion of the times to float: on every non-empty chord list with
    times in non-decreasing order, its rows and names are the intervals
    [collapse] returns with their times converted, and the very intervals of
    [collapse] when every tick is above [- 2 ^ 53] and at most [2 ^ 53]. *)
Theorem load_chords_is_collapse :
  forall chords, chords <> [] ->
    nondecreasing (map chord_time chords) = true ->
    exists cd ivs, load_chords chords = Ok cd /\
      collapse (fun s => s) (chord_events chords) = inr ivs /\
      chord_data_intervals cd = map float_interval ivs /\
      (small_ticks (map chord_time chords) = true ->
       chord_data_intervals cd = ivs).
Proof.
  intros [|k0 r] H Hsort; [contradiction|].
  eexists. eexists. split; [apply load_chords_rows|].
  unfold chord_data_intervals. cbn [cd_intervals cd_labels].
  split; [|split].
  - apply (collapse_rows _ chord_time chord (fun s => s) (fun s => s)).
    + apply Forall_forall. reflexivity.
    + exact Hsort.
  - apply labelled_float_rows.
  - intros Hsmall. unfold chord_openers.
    rewrite (small_rows_kept _ chord_time chord (fun s => s) (fun s => s) k0 r Hsmall).
    reflexivity.
Qed.

Lemma load_chords_is_collapse_witness :
  exists cd ivs,
    load_chords [mkChord 0 "C"; mkChord 5 "C"; mkChord 6 "G"; mkChord 20 "G"] = Ok cd /\
    collapse (fun s => s)
      (chord_events [mkChord 0 "C"; mkChord 5 "C"; mkChord 6 "G"; mkChord 20 "G"])
    = inr ivs /\
    chord_data_intervals cd = map float_interval ivs /\
    (small_ticks
       (map chord_time [mkChord 0 "C"; mkChord 5 "C"; mkChord 6 "G"; mkChord 20 "G"])
     = true ->
     chord_data_intervals cd = ivs).
Proof.
  apply load_chords_is_collapse; [discriminate | reflexivity].
Defined.



(** ** Where [load_key] leaves the collapser

    After the first change of key, the last name appended holds [":"] where
    the key string holds a space, and the loop compares it with a name that
    still holds the space: the test never finds them equal again. *)

(** C1 at the annotations C major (0), G major (5), G major (10): the last
    two carry one key, equal after the flat-sign replacement, and [load_key]
    puts them in two intervals, each in a group of its own. *)
Theorem load_key_splits_a_run :
  key_flat (key (mkKey 5 "G major")) = key_flat (key (mkKey 10 "G major")) /\
  load_key [mkKey 0 "C major"; mkKey 5 "G major"; mkKey 10 "G major"]
  = Ok (mkKeyData [(0, 4); (5, 9); (10, 10)] "ticks"
          ["C major"; "G:major"; "G:major"] "key_mode") /\
  key_grouping [mkKey 0 "C major"; mkKey 5 "G major"; mkKey 10 "G major"]
  = [[mkKey 0 "C major"]; [mkKey 5 "G major"]; [mkKey 10 "G major"]].
Proof. repeat split. Qed.

(** C3 at the annotations C major (0), G major (5), G major (10),
    G major (15): the key strings form two maximal runs, and [load_key]
    returns four intervals. *)
Theorem load_key_counts_more_than_runs :
  List.length
    (runs key_flat
       (key_events [mkKey 0 "C major"; mkKey 5 "G major"; mkKey 10 "G major";
                    mkKey 15 "G major"])) = 2%nat /\
  exists kd,
    load_key [mkKey 0 "C major"; mkKey 5 "G major"; mkKey 10 "G major";
              mkKey 15 "G major"] = Ok kd /\
    List.length (kd_intervals kd) = 4%nat /\
    List.length (kd_keys kd) = 4%nat.
Proof. split; [reflexivity|]. eexists. repeat split. Qed.

(** C6 at the annotations C major (0), G major (5), G major (10): the key
    strings form two maximal runs, the second of them the last, and
    [load_key] returns three intervals.  The second interval is not the last
    one and ends at tick 9, one tick before the second annotation of the
    last run: no run follows that run, and 9 is not the time of the first
    event of any run minus one.  The last interval does end at the time of
    the last annotation. *)
Theorem load_key_ends_inside_a_run :
  runs key_flat
    (key_events [mkKey 0 "C major"; mkKey 5 "G major"; mkKey 10 "G major"])
  = [[(0, "C major")]; [(5, "G major"); (10, "G major")]] /\
  exists kd,
    load_key [mkKey 0 "C major"; mkKey 5 "G major"; mkKey 10 "G major"] = Ok kd /\
    kd_intervals kd = [(0, 4); (5, 9); (10, 10)] /\
    nth_error (kd_intervals kd) 1 = Some (5, 9) /\
    nth_error
      (runs key_flat
         (key_events [mkKey 0 "C major"; mkKey 5 "G major"; mkKey 10 "G major"]))
      2 = None /\
    (forall run t l rest,
        In run
          (runs key_flat
             (key_events [mkKey 0 "C major"; mkKey 5 "G major"; mkKey 10 "G major"])) ->
        run = (t, l) :: rest ->
        9 <> t - 1) /\
    getitem_last (map snd (kd_intervals kd)) = Ok 10.
Proof.
  split; [reflexivity|]. eexists. split; [reflexivity|].
  split; [reflexivity|]. split; [reflexivity|]. split; [reflexivity|].
  split; [|reflexivity].
  intros run t l rest [<-|[<-|[]]] E; injection E as <- _ _; lia.
Qed.

(** C8 at the annotations a minor (0), a minor (3), E major (8),
    E major (11): [collapse] returns two intervals under either key
    normalization, and [load_key] returns three, the first of them under a
    name neither normalization alone produces for all intervals. *)
Theorem load_key_is_not_collapse :
  collapse key_flat
    (key_events [mkKey 0 "a minor"; mkKey 3 "a minor"; mkKey 8 "E major";
                 mkKey 11 "E major"])
  = inr [mkInterval 0 7 "a minor"; mkInterval 8 11 "E major"] /\
  collapse key_flat_colon
    (key_events [mkKey 0 "a minor"; mkKey 3 "a minor"; mkKey 8 "E major";
                 mkKey 11 "E major"])
  = inr [mkInterval 0 7 "a:minor"; mkInterval 8 11 "E:major"] /\
  exists kd,
    load_key [mkKey 0 "a minor"; mkKey 3 "a minor"; mkKey 8 "E major";
              mkKey 11 "E major"] = Ok kd /\
    key_data_intervals kd
    = [mkInterval 0 7 "a minor"; mkInterval 8 10 "E:major";
       mkInterval 11 11 "E:major"].
Proof. split; [reflexivity|]. split; [reflexivity|]. eexists. split; reflexivity. Qed.

(** ** Subsequences *)

Lemma subsequence_refl (X : Type) (l : list X) : subsequence l l.
Proof. induction l; constructor; assumption. Qed.

Lemma subsequence_In (X : Type) (s l : list X) :
  subsequence s l -> forall x, In x s -> In x l.
Proof.
  induction 1 as [|y s l _ IH|y s l _ IH]; intros x Hin.
  - exact Hin.
  - right. apply IH, Hin.
  - destruct Hin as [->|Hin]; [left; reflexivity | right; apply IH, Hin].
Qed.

Lemma subsequence_app (X : Type) (s1 l1 : list X) :
  subsequence s1 l1 -> forall s2 l2, subsequence s2 l2 ->
  subsequence (s1 ++ s2) (l1 ++ l2).
Proof.
  induction 1 as [|y s l _ IH|y s l _ IH]; intros s2 l2 H2; cbn [app].
  - exact H2.
  - apply subsequence_skip, IH, H2.
  - apply subsequence_keep, IH, H2.
Qed.

Lemma subsequence_trans (X : Type) (b c : list X) :
  subsequence b c -> forall a, subsequence a b -> subsequence a c.
Proof.
  induction 1 as [|y b c _ IH|y b c _ IH]; intros a Hab.
  - exact Hab.
  - apply subsequence_skip, IH, Hab.
  - inversion Hab; subst.
    + apply subsequence_skip, IH. assumption.
    + apply subsequence_keep, IH. assumption.
Qed.

Lemma subsequence_map (X Y : Type) (f : X -> Y) (s l : list X) :
  subsequence s l -> subsequence (map f s) (map f l).
Proof. induction 1; cbn [map]; constructor; assumption. Qed.

Lemma subsequence_filter (X : Type) (f : X -> bool) (l : list X) :
  subsequence (filter f l) l.
Proof.
  induction l as [|x l IH]; cbn [filter]; [constructor|].
  destruct (f x); constructor; exact IH.
Qed.

Lemma subsequence_NoDup (X : Type) (s l : list X) :
  subsequence s l -> NoDup l -> NoDup s.
Proof.
  induction 1 as [|y s l Hs IH|y s l Hs IH]; intros Hl.
  - exact Hl.
  - inversion Hl; subst. apply IH. assumption.
  - inversion Hl as [|? ? Hy Hl']; subst. constructor; [|apply IH, Hl'].
    intros Hin. apply Hy. eapply subsequence_In; eassumption.
Qed.

Lemma subsequence_length (X : Type) (s l : list X) :
  subsequence s l -> (List.length s <= List.length l)%nat.
Proof. induction 1; cbn [List.length]; lia. Qed.

Lemma subsequence_nondecreasing (s l : list Z) :
  subsequence s l -> nondecreasing l = true -> nondecreasing s = true.
Proof.
  induction 1 as [|y s l Hs IH|y s l Hs IH]; intros Hl.
  - reflexivity.
  - apply IH. eapply nondecreasing_tail, Hl.
  - pose proof (IH (nondecreasing_tail _ _ Hl)) as Hs'.
    destruct s as [|b s]; [reflexivity|].
    apply nondecreasing_cons. split; [|exact Hs'].
    pose proof (nondecreasing_head _ _ Hl) as Hall.
    rewrite Forall_forall in Hall. apply Hall.
    eapply subsequence_In; [exact Hs | left; reflexivity].
Qed.

Lemma subsequence_nonnegative (s l : list Z) :
  subsequence s l -> nonnegative l = true -> nonnegative s = true.
Proof.
  unfold nonnegative. intros Hs Hl. apply forallb_forall. intros x Hin.
  rewrite forallb_forall in Hl. apply Hl. eapply subsequence_In; eassumption.
Qed.

Lemma subsequence_small_ticks (s l : list Z) :
  subsequence s l -> small_ticks l = true -> small_ticks s = true.
Proof.
  unfold small_ticks. intros Hs Hl. apply forallb_forall. intros x Hin.
  rewrite forallb_forall in Hl. apply Hl. eapply subsequence_In; eassumption.
Qed.

(** A loop that appends one entry per item builds the list of the entries. *)
Lemma fold_left_append (X Y : Type) (f : X -> Y) (step : list Y -> X -> list Y) :
  (forall acc x, step acc x = acc ++ [f x]) ->
  forall l acc, fold_left step l acc = acc ++ map f l.
Proof.
  intros Hstep. induction l as [|x l IH]; intros acc; cbn [fold_left map].
  - rewrite app_nil_r. reflexivity.
  - rewrite IH, Hstep, <- app_assoc. reflexivity.
Qed.

(** ** The dictionary of roman numerals by offset *)

Section ScoreFacts.

Variable O : Type.
Variable O_eq_dec : forall a b : O, {a = b} + {a <> b}.
Variable ticks : O -> Z -> Z.

Let upd (d : list (O * RomanNumeral O)) (rn : RomanNumeral O) :=
  dict_set O_eq_dec d (offset rn) rn.

Lemma dict_set_keys (V : Type) (d : list (O * V)) (k : O) (v : V) :
  map fst (dict_set O_eq_dec d k v) = map fst d \/
  (~ In k (map fst d) /\ map fst (dict_set O_eq_dec d k v) = map fst d ++ [k]).
Proof.
  induction d as [|[k0 v0] r IH]; cbn [dict_set map fst app].
  - right. split; [intros [] | reflexivity].
  - destruct (O_eq_dec k0 k) as [E|E]; [left; reflexivity|].
    cbn [map fst]. destruct IH as [IH|[Hn IH]]; rewrite IH.
    + left. reflexivity.
    + right. split; [|reflexivity]. intros [H|H]; [exact (E H) | exact (Hn H)].
Qed.

Lemma dict_set_NoDup (V : Type) (d : list (O * V)) (k : O) (v : V) :
  NoDup (map fst d) -> NoDup (map fst (dict_set O_eq_dec d k v)).
Proof.
  intros Hd. destruct (dict_set_keys _ d k v) as [->|[Hn ->]]; [exact Hd|].
  apply NoDup_app; [exact Hd | repeat constructor; intros [] |].
  intros x Hx [<-|[]]. exact (Hn Hx).
Qed.

Lemma dict_set_In (V : Type) (d : list (O * V)) (k : O) (v : V) :
  NoDup (map fst d) ->
  forall k' v',
    In (k', v') (dict_set O_eq_dec d k v) <->
    (k' = k /\ v' = v) \/ (k' <> k /\ In (k', v') d).
Proof.
  induction d as [|[k0 v0] r IH]; intros Hd k' v'; cbn [dict_set].
  - split.
    + intros [H|[]]. injection H as <- <-. left. split; reflexivity.
    + intros [[-> ->]|[_ []]]. left. reflexivity.
  - cbn [map fst] in Hd. inversion Hd as [|? ? Hk0 Hr]; subst.
    destruct (O_eq_dec k0 k) as [E|E].
    + subst k0. split.
      * intros [H|H].
        -- injection H as <- <-. left. split; reflexivity.
        -- right. split; [|right; exact H].
           intros ->. apply Hk0. apply (in_map fst) in H. exact H.
      * intros [[-> ->]|[Hne [H|H]]].
        -- left. reflexivity.
        -- injection H as <- _. contradiction.
        -- right. exact H.
    + split.
      * intros [H|H].
        -- injection H as <- <-. right. split; [exact E | left; reflexivity].
        -- apply (IH Hr) in H. destruct H as [H|[Hne H]]; [left; exact H|].
           right. split; [exact Hne | right; exact H].
      * intros [H|[Hne [H|H]]].
        -- right. apply (IH Hr). left. exact H.
        -- left. exact H.
        -- right. apply (IH Hr). right. split; assumption.
Qed.

Lemma rna_fold_NoDup (l : list (RomanNumeral O)) :
  forall d, NoDup (map fst d) -> NoDup (map fst (fold_left upd l d)).
Proof.
  induction l as [|a l IH]; intros d Hd; [exact Hd|].
  cbn [fold_left]. apply IH. subst upd. apply dict_set_NoDup, Hd.
Qed.

Lemma rna_fold_subsequence (l : list (RomanNumeral O)) :
  forall d, subsequence (map fst (fold_left upd l d)) (map fst d ++ map offset l).
Proof.
  induction l as [|a l IH]; intros d; cbn [fold_left map].
  - rewrite app_nil_r. apply subsequence_refl.
  - eapply subsequence_trans; [|apply IH].
    change (map fst d ++ offset a :: map offset l)
      with (map fst d ++ [offset a] ++ map offset l).
    rewrite app_assoc. apply subsequence_app; [|apply subsequence_refl].
    subst upd. cbv beta.
    destruct (dict_set_keys _ d (offset a) a) as [->|[_ ->]].
    + rewrite <- (app_nil_r (map fst d)) at 1.
      apply subsequence_app; [apply subsequence_refl | repeat constructor].
    + apply subsequence_refl.
Qed.

Lemma rna_fold_In (l : list (RomanNumeral O)) :
  forall d, NoDup (map fst d) ->
  forall o rn,
    In (o, rn) (fold_left upd l d) <->
    (exists pre post,
        l = pre ++ rn :: post /\ offset rn = o /\
        Forall (fun r => offset r <> o) post) \/
    (In (o, rn) d /\ Forall (fun r => offset r <> o) l).
Proof.
  induction l as [|a l IH]; intros d Hd o rn; cbn [fold_left].
  - split.
    + intros H. right. split; [exact H | constructor].
    + intros [(pre & post & E & _)|[H _]]; [|exact H].
      destruct pre; discriminate.
  - assert (Hd' : NoDup (map fst (upd d a)))
      by (subst upd; apply dict_set_NoDup, Hd).
    rewrite (IH _ Hd'). subst upd. cbv beta. rewrite (dict_set_In _ _ _ _ Hd).
    split.
    + intros [(pre & post & -> & Ho & Hpost)|[[[-> ->]|[Hne Hin]] Hall]].
      * left. exists (a :: pre), post. repeat split; assumption.
      * left. exists [], l. repeat split. exact Hall.
      * right. split; [exact Hin|]. constructor; [|exact Hall].
        intros E. apply Hne. symmetry. exact E.
    + intros [(pre & post & E & Ho & Hpost)|[Hin Hall]].
      * destruct pre as [|b pre]; cbn [app] in E; injection E as -> ->.
        -- right. split; [|exact Hpost]. left. split; [symmetry; exact Ho | reflexivity].
        -- left. exists pre, post. repeat split; assumption.
      * inversion Hall as [|? ? Ha Hl]; subst. right. split; [|exact Hl].
        right. split; [|exact Hin]. intros E. apply Ha. symmetry. exact E.
Qed.

End ScoreFacts.

(** ** The last end time *)

Lemma getitem_last_map (B C : Type) (f : B -> C) (l : list B) :
  getitem_last (map f l) = bind (getitem_last l) (fun x => Ok (f x)).
Proof.
  unfold getitem_last. rewrite <- map_rev.
  destruct (rev l); reflexivity.
Qed.

(** The last end time of the float array is the last end time as a float. *)
Lemma getitem_last_float_rows_from (bs : list Z) (a T : Z) :
  getitem_last (map snd (float_rows (rows_from a bs T))) = Ok (float_of_int T).
Proof.
  rewrite map_snd_float_rows, getitem_last_map, getitem_last_rows_from.
  reflexivity.
Qed.

Lemma getitem_last_In (B : Type) (l : list B) (x : B) :
  getitem_last l = Ok x -> In x l.
Proof.
  unfold getitem_last. intros H. apply in_rev.
  destruct (rev l) as [|y r]; [discriminate|].
  injection H as ->. left. reflexivity.
Qed.

Lemma load_key_last_end (keys : list KeyAnnotation) (d : Z) :
  getitem_last (map key_time keys) = Ok d ->
  exists kd, load_key keys = Ok kd /\
    getitem_last (map snd (kd_intervals kd)) = Ok (float_of_int d).
Proof.
  destruct keys as [|k0 r]; [discriminate|]. intros H.
  rewrite getitem_last_times in H. injection H as <-.
  eexists. split; [apply load_key_rows|]. cbn [kd_intervals].
  apply getitem_last_float_rows_from.
Qed.

Lemma load_chords_last_end (chords : list ChordAnnotation) (d : Z) :
  getitem_last (map chord_time chords) = Ok d ->
  exists cd, load_chords chords = Ok cd /\
    getitem_last (map snd (cd_intervals cd)) = Ok (float_of_int d).
Proof.
  destruct chords as [|k0 r]; [discriminate|]. intros H.
  rewrite getitem_last_times in H. injection H as <-.
  eexists. split; [apply load_chords_rows|]. cbn [cd_intervals].
  apply getitem_last_float_rows_from.
Qed.

(** ** The annotation lists of a score *)

Section AnnotationFacts.

Variable O : Type.
Variable O_eq_dec : forall a b : O, {a = b} + {a <> b}.
Variable ticks : O -> Z -> Z.

Let split := _split_score_annotations O_eq_dec.

Lemma split_subsequence (elements : list (RomanNumeral O)) :
  subsequence (map fst (split elements)) (map offset elements).
Proof.
  subst split. unfold _split_score_annotations.
  eapply subsequence_trans; [|apply subsequence_map, subsequence_filter].
  apply (rna_fold_subsequence O O_eq_dec elements []).
Qed.

Lemma key_base_map (elements : list (RomanNumeral O)) (resolution : Z) :
  _load_key_base O_eq_dec ticks elements resolution
  = map (fun item =>
           mkKey (ticks (fst item) resolution)
                 (py_or (secondaryRomanNumeralKey (snd item)) (rn_key (snd item))))
        (split elements).
Proof.
  unfold _load_key_base. apply (fold_left_append _ _ _ _) with (acc := []).
  intros acc [o rn]. reflexivity.
Qed.

Lemma chords_base_map (elements : list (RomanNumeral O)) (resolution : Z) :
  _load_chords_base O_eq_dec ticks elements resolution
  = map (fun item =>
           mkChord (ticks (fst item) resolution) (pitchedCommonName (snd item)))
        (split elements).
Proof.
  unfold _load_chords_base. apply (fold_left_append _ _ _ _) with (acc := []).
  intros acc [o rn]. reflexivity.
Qed.

Lemma roman_numerals_map (elements : list (RomanNumeral O)) (resolution : Z) :
  load_roman_numerals O_eq_dec ticks elements resolution
  = map (fun item => mkRoman (ticks (fst item) resolution) (figure (snd item)))
        (split elements).
Proof.
  unfold load_roman_numerals. apply (fold_left_append _ _ _ _) with (acc := []).
  intros acc [o rn]. reflexivity.
Qed.

Lemma key_base_times (elements : list (RomanNumeral O)) (resolution : Z) :
  map key_time (_load_key_base O_eq_dec ticks elements resolution)
  = map (fun o => ticks o resolution) (map fst (split elements)).
Proof. rewrite key_base_map, !map_map. reflexivity. Qed.

Lemma chords_base_times (elements : list (RomanNumeral O)) (resolution : Z) :
  map chord_time (_load_chords_base O_eq_dec ticks elements resolution)
  = map (fun o => ticks o resolution) (map fst (split elements)).
Proof. rewrite chords_base_map, !map_map. reflexivity. Qed.

Lemma roman_numerals_times (elements : list (RomanNumeral O)) (resolution : Z) :
  map roman_time (load_roman_numerals O_eq_dec ticks elements resolution)
  = map (fun o => ticks o resolution) (map fst (split elements)).
Proof. rewrite roman_numerals_map, !map_map. reflexivity. Qed.

(** X4: [_split_score_annotations] returns at most one annotation per
    offset: the offsets of its result are pairwise distinct. *)
Theorem annotation_offsets_distinct (elements : list (RomanNumeral O)) :
  NoDup (map fst (_split_score_annotations O_eq_dec elements)).
Proof.
  unfold _split_score_annotations.
  eapply subsequence_NoDup; [apply subsequence_map, subsequence_filter|].
  apply (rna_fold_NoDup O O_eq_dec elements []). constructor.
Qed.

Lemma annotation_last_at_offset
    (elements : list (RomanNumeral O)) (o : O) (rn : RomanNumeral O) :
  In (o, rn) (_split_score_annotations O_eq_dec elements) ->
  truth rn = true /\
  exists pre post,
    elements = pre ++ rn :: post /\ offset rn = o /\
    Forall (fun r => offset r <> o) post.
Proof.
  unfold _split_score_annotations. rewrite filter_In. cbn [snd].
  unfold rna_items.
  rewrite (rna_fold_In O O_eq_dec elements [] (NoDup_nil _) o rn).
  intros [[H|[[] _]] Ht]. split; assumption.
Qed.

(** X5: the annotation [_split_score_annotations] returns at an offset is the
    last roman numeral the score lists at that offset, and it is returned
    exactly when that one is true as a condition: an earlier roman numeral
    at the same offset is never returned. *)
Theorem annotation_is_last_at_offset
    (elements : list (RomanNumeral O)) (o : O) (rn : RomanNumeral O) :
  In (o, rn) (_split_score_annotations O_eq_dec elements) <->
  truth rn = true /\
  exists pre post,
    elements = pre ++ rn :: post /\ offset rn = o /\
    Forall (fun r => offset r <> o) post.
Proof.
  unfold _split_score_annotations. rewrite filter_In. cbn [snd].
  unfold rna_items.
  rewrite (rna_fold_In O O_eq_dec elements [] (NoDup_nil _) o rn).
  split.
  - intros [[H|[[] _]] Ht]. split; assumption.
  - intros [Ht H]. split; [left; exact H | exact Ht].
Qed.

(** X6: the times of the three annotation lists are a subsequence of the
    ticks of the roman numerals as the score lists them; so they are in
    non-decreasing order, and non-negative, when those are. *)
Theorem annotation_times_keep_order
    (elements : list (RomanNumeral O)) (resolution : Z) :
  subsequence
    (map key_time (_load_key_base O_eq_dec ticks elements resolution))
    (map (fun rn => ticks (offset rn) resolution) elements) /\
  (nondecreasing (map (fun rn => ticks (offset rn) resolution) elements) = true ->
   nondecreasing (map key_time (_load_key_base O_eq_dec ticks elements resolution)) = true /\
   nondecreasing (map chord_time (_load_chords_base O_eq_dec ticks elements resolution)) = true /\
   nondecreasing (map roman_time (load_roman_numerals O_eq_dec ticks elements resolution)) = true) /\
  (nonnegative (map (fun rn => ticks (offset rn) resolution) elements) = true ->
   nonnegative (map key_time (_load_key_base O_eq_dec ticks elements resolution)) = true /\
   nonnegative (map chord_time (_load_chords_base O_eq_dec ticks elements resolution)) = true /\
   nonnegative (map roman_time (load_roman_numerals O_eq_dec ticks elements resolution)) = true).
Proof.
  assert (Hs : subsequence
                 (map (fun o => ticks o resolution) (map fst (split elements)))
                 (map (fun rn => ticks (offset rn) resolution) elements)).
  { rewrite <- (map_map offset (fun o => ticks o resolution)).
    apply subsequence_map, split_subsequence. }
  rewrite key_base_times, chords_base_times, roman_numerals_times.
  split; [exact Hs|]. split; intros H.
  - pose proof (subsequence_nondecreasing _ _ Hs H). auto.
  - pose proof (subsequence_nonnegative _ _ Hs H). auto.
Qed.

Lemma annotation_lists_aligned_times
    (elements : list (RomanNumeral O)) (resolution : Z) :
  map key_time (_load_key_base O_eq_dec ticks elements resolution)
  = map chord_time (_load_chords_base O_eq_dec ticks elements resolution).
Proof. rewrite key_base_times, chords_base_times. reflexivity. Qed.

(** X7: the key, chord and roman numeral lists of a score are aligned: they
    have one entry per annotation [_split_score_annotations] returns, in its
    order, and the entries at one index carry the same time and come from
    the same roman numeral, the key being its secondary key when it has one
    and its key otherwise. *)
Theorem annotation_lists_aligned
    (elements : list (RomanNumeral O)) (resolution : Z) :
  map key_time (_load_key_base O_eq_dec ticks elements resolution)
  = map chord_time (_load_chords_base O_eq_dec ticks elements resolution) /\
  map chord_time (_load_chords_base O_eq_dec ticks elements resolution)
  = map roman_time (load_roman_numerals O_eq_dec ticks elements resolution) /\
  (List.length (_load_key_base O_eq_dec ticks elements resolution)
   <= List.length elements)%nat /\
  forall i o rn,
    nth_error (_split_score_annotations O_eq_dec elements) i = Some (o, rn) ->
    nth_error (_load_key_base O_eq_dec ticks elements resolution) i
    = Some (mkKey (ticks o resolution)
                  (match secondaryRomanNumeralKey rn with
                   | Some k => k
                   | None => rn_key rn
                   end)) /\
    nth_error (_load_chords_base O_eq_dec ticks elements resolution) i
    = Some (mkChord (ticks o resolution) (pitchedCommonName rn)) /\
    nth_error (load_roman_numerals O_eq_dec ticks elements resolution) i
    = Some (mkRoman (ticks o resolution) (figure rn)).
Proof.
  rewrite key_base_times, chords_base_times, roman_numerals_times.
  split; [reflexivity|]. split; [reflexivity|]. split.
  - rewrite key_base_map, length_map, <- (length_map fst),
      <- (length_map offset elements).
    apply subsequence_length, split_subsequence.
  - intros i o rn H.
    rewrite key_base_map, chords_base_map, roman_numerals_map, !nth_error_map.
    subst split. rewrite H. repeat split.
Qed.

(** X8: when the score yields an annotation, the [duration] of the track is
    the time of its last annotation, and the end time of the last key
    interval and of the last chord interval is that time as a float; it is
    that very time when the ticks are integers a float holds exactly, as the
    results of [int(round(float(..)))] are. *)
Theorem duration_is_last_end_time (elements : list (RomanNumeral O)) :
  _split_score_annotations O_eq_dec elements <> [] ->
  exists d kd cd,
    track_duration O_eq_dec ticks elements = Ok d /\
    getitem_last (map key_time (track_keys_music21 O_eq_dec ticks elements)) = Ok d /\
    track_keys O_eq_dec ticks elements = Ok kd /\
    track_chords O_eq_dec ticks elements = Ok cd /\
    getitem_last (map snd (kd_intervals kd)) = Ok (float_of_int d) /\
    getitem_last (map snd (cd_intervals cd)) = Ok (float_of_int d) /\
    (Forall (fun rn => float_of_int (ticks (offset rn) 28) = ticks (offset rn) 28)
            elements ->
     getitem_last (map snd (kd_intervals kd)) = Ok d /\
     getitem_last (map snd (cd_intervals cd)) = Ok d).
Proof.
  intros Hne.
  unfold track_duration, track_keys, track_chords, track_keys_music21,
    track_chords_music21, load_key_of, load_chords_of, load_key_music21,
    load_chords_music21.
  rewrite <- getitem_last_map.
  pose proof (annotation_lists_aligned_times elements 28) as Ht.
  destruct (getitem_last
              (map chord_time (_load_chords_base O_eq_dec ticks elements 28)))
    as [d|e] eqn:Hd.
  - destruct (load_chords_last_end _ _ Hd) as (cd & Hcd & Hcend).
    rewrite <- Ht in Hd.
    destruct (load_key_last_end _ _ Hd) as (kd & Hkd & Hkend).
    exists d, kd, cd.
    split; [reflexivity|]. split; [exact Hd|]. split; [exact Hkd|].
    split; [exact Hcd|]. split; [exact Hkend|]. split; [exact Hcend|].
    intros Hexact. rewrite Hkend, Hcend.
    apply getitem_last_In in Hd. rewrite key_base_times in Hd.
    apply in_map_iff in Hd. destruct Hd as (o & <- & Ho).
    apply (subsequence_In _ _ _ (split_subsequence elements)) in Ho.
    apply in_map_iff in Ho. destruct Ho as (rn & <- & Hrn).
    rewrite Forall_forall in Hexact. rewrite (Hexact rn Hrn).
    split; reflexivity.
  - exfalso. rewrite chords_base_map in Hd. fold split in Hne.
    destruct (split elements) as [|item r]; [contradiction|].
    cbn [map] in Hd. rewrite getitem_last_cons in Hd. discriminate.
Qed.

(** X9: when no roman numeral that is the last one at its offset is true as
    a condition (so for a score without roman numerals), the three lists a
    track loads are empty, and its [keys], [chords] and [duration] raise
    [IndexError]. *)
Theorem track_without_annotations (elements : list (RomanNumeral O)) :
  (forall pre rn post,
      elements = pre ++ rn :: post ->
      Forall (fun r => offset r <> offset rn) post ->
      truth rn = false) ->
  track_keys_music21 O_eq_dec ticks elements = [] /\
  track_chords_music21 O_eq_dec ticks elements = [] /\
  track_roman_numerals O_eq_dec ticks elements = [] /\
  track_keys O_eq_dec ticks elements = Raise IndexError /\
  track_chords O_eq_dec ticks elements = Raise IndexError /\
  track_duration O_eq_dec ticks elements = Raise IndexError.
Proof.
  intros Hall.
  assert (E : split elements = []).
  { destruct (split elements) as [|[o rn] r] eqn:Es; [reflexivity|]. exfalso.
    assert (Hin : In (o, rn) (split elements)) by (rewrite Es; left; reflexivity).
    subst split. apply annotation_last_at_offset in Hin.
    destruct Hin as (Ht & pre & post & El & <- & Hpost).
    rewrite (Hall pre rn post El Hpost) in Ht. discriminate. }
  unfold track_duration, track_keys, track_chords, track_keys_music21,
    track_chords_music21, track_roman_numerals, load_key_of, load_chords_of,
    load_key_music21, load_chords_music21.
  rewrite key_base_map, chords_base_map, roman_numerals_map, E.
  repeat split.
Qed.

(** X10: when the ticks of the roman numerals, as the score lists them, are
    from 0 to [2 ^ 53] and in non-decreasing order and the score yields an
    annotation, [load_key] and [load_chords] return intervals whose start
    times are in non-decreasing order, each ending strictly before every
    later one starts, and the time of every entry of the base list lies in
    exactly one of them. *)
Theorem score_intervals_ordered_and_covering
    (elements : list (RomanNumeral O)) (resolution : Z) :
  _split_score_annotations O_eq_dec elements <> [] ->
  nonnegative (map (fun rn => ticks (offset rn) resolution) elements) = true ->
  nondecreasing (map (fun rn => ticks (offset rn) resolution) elements) = true ->
  small_ticks (map (fun rn => ticks (offset rn) resolution) elements) = true ->
  (exists kd,
      load_key_of O_eq_dec ticks elements resolution = Ok kd /\
      nondecreasing (map fst (kd_intervals kd)) = true /\
      ForallOrdPairs (fun r1 r2 => snd r1 < fst r2) (kd_intervals kd) /\
      forall k, In k (load_key_music21 O_eq_dec ticks elements resolution) ->
                covering (key_time k) (kd_intervals kd) = 1%nat) /\
  (exists cd,
      load_chords_of O_eq_dec ticks elements resolution = Ok cd /\
      nondecreasing (map fst (cd_intervals cd)) = true /\
      ForallOrdPairs (fun r1 r2 => snd r1 < fst r2) (cd_intervals cd) /\
      forall k, In k (load_chords_music21 O_eq_dec ticks elements resolution) ->
                covering (chord_time k) (cd_intervals cd) = 1%nat).
Proof.
  intros Hne Hpos Hsort Hsmall.
  assert (Hs : subsequence
                 (map (fun o => ticks o resolution) (map fst (split elements)))
                 (map (fun rn => ticks (offset rn) resolution) elements)).
  { rewrite <- (map_map offset (fun o => ticks o resolution)).
    apply subsequence_map, split_subsequence. }
  pose proof (subsequence_nondecreasing _ _ Hs Hsort) as Hsort'.
  pose proof (subsequence_nonnegative _ _ Hs Hpos) as Hpos'.
  pose proof (subsequence_small_ticks _ _ Hs Hsmall) as Hsmall'.
  unfold load_key_of, load_chords_of, load_key_music21, load_chords_music21.
  split.
  - rewrite <- key_base_times in Hsort', Hpos', Hsmall'.
    assert (Hk : _load_key_base O_eq_dec ticks elements resolution <> []).
    { rewrite key_base_map. fold split in Hne.
      destruct (split elements); [contradiction | discriminate]. }
    destruct (_load_key_base O_eq_dec ticks elements resolution) as [|k0 r];
      [contradiction|].
    apply nonnegative_head in Hpos'.
    pose proof (boundaries_chain _ key_time key key_flat key_flat_colon
                  k0 r Hpos' Hsort') as Hc.
    eexists. split; [apply load_key_small_rows, Hsmall'|]. cbn [kd_intervals].
    split; [rewrite map_fst_rows_from; eapply chain_nondecreasing, Hc|].
    split; [apply chain_disjoint, Hc|].
    intros k Hin. apply covering_inside; [exact Hc|].
    apply time_in_range; assumption.
  - rewrite <- chords_base_times in Hsort', Hpos', Hsmall'.
    assert (Hk : _load_chords_base O_eq_dec ticks elements resolution <> []).
    { rewrite chords_base_map. fold split in Hne.
      destruct (split elements); [contradiction | discriminate]. }
    destruct (_load_chords_base O_eq_dec ticks elements resolution) as [|k0 r];
      [contradiction|].
    apply nonnegative_head in Hpos'.
    pose proof (boundaries_chain _ chord_time chord (fun s => s) (fun s => s)
                  k0 r Hpos' Hsort') as Hc.
    eexists. split; [apply load_chords_small_rows, Hsmall'|]. cbn [cd_intervals].
    split; [rewrite map_fst_rows_from; eapply chain_nondecreasing, Hc|].
    split; [apply chain_disjoint, Hc|].
    intros k Hin. apply covering_inside; [exact Hc|].
    apply time_in_range; assumption.
Qed.

End AnnotationFacts.

(** ** More on the intervals of the loaders *)

Section IntervalFacts.

Variable A : Type.
Variable time : A -> Z.
Variable raw : A -> string.
Variables compared stored : string -> string.

Lemma openers_length (l : list A) :
  forall p, (List.length (openers raw compared stored p l) <= List.length l)%nat.
Proof.
  induction l as [|k r IH]; intros p; cbn [openers List.length]; [lia|].
  destruct (String.eqb (compared (raw k)) p).
  - specialize (IH p). lia.
  - cbn [List.length]. specialize (IH (stored (raw k))). lia.
Qed.

Lemma openers_nil_iff (l : list A) (p : string) :
  openers raw compared stored p l = [] <->
  Forall (fun k => compared (raw k) = p) l.
Proof.
  induction l as [|k r IH]; cbn [openers]; [split; constructor|].
  destruct (String.eqb_spec (compared (raw k)) p) as [E|E].
  - rewrite IH. split; intros H; [constructor; assumption | inversion H; assumption].
  - split; [discriminate|]. intros H. inversion H. contradiction.
Qed.

Lemma openers_skip (pre l : list A) (p : string) :
  Forall (fun k => compared (raw k) = p) pre ->
  openers raw compared stored p (pre ++ l) = openers raw compared stored p l.
Proof.
  induction 1 as [|k pre Hk _ IH]; cbn [app openers]; [reflexivity|].
  rewrite Hk, String.eqb_refl. exact IH.
Qed.

Lemma increasing_cons (a b : Z) (l : list Z) :
  increasing (a :: b :: l) = true <-> a < b /\ increasing (b :: l) = true.
Proof.
  change (increasing (a :: b :: l)) with ((a <? b) && increasing (b :: l))%bool.
  rewrite andb_true_iff, Z.ltb_lt. reflexivity.
Qed.

Lemma openers_strict_chain (l : list A) :
  forall (p : string) (a d : Z),
    a <= d -> increasing (d :: map time l) = true ->
    strict_chain a (map time (openers raw compared stored p l))
                 (last (map time l) d).
Proof.
  induction l as [|k r IH]; intros p a d Had H; [exact Had|].
  cbn [map] in *. rewrite last_cons_default.
  apply increasing_cons in H. destruct H as [Hdk H].
  cbn [openers]. destruct (String.eqb (compared (raw k)) p).
  - apply IH; [lia | exact H].
  - cbn [map strict_chain]. split; [lia|]. apply IH; [lia | exact H].
Qed.

End IntervalFacts.

Lemma strict_chain_rows (bs : list Z) :
  forall a T, strict_chain a bs T ->
    Forall (fun row => fst row <= snd row) (rows_from a bs T).
Proof.
  induction bs as [|b r IH]; intros a T H; cbn [rows_from].
  - repeat constructor. exact H.
  - destruct H as [Hab H]. constructor; [cbn; lia | apply IH, H].
Qed.

Lemma float_rows_well_formed (rows : list (Z * Z)) :
  Forall (fun row => fst row <= snd row) rows ->
  Forall (fun row => fst row <= snd row) (float_rows rows).
Proof.
  induction 1 as [|row rows Hrow _ IH]; [constructor|].
  cbn [float_rows map]. constructor; [|exact IH].
  cbn [fst snd]. apply float_of_int_mono, Hrow.
Qed.

Lemma adjacent_differ_names (B : Type) (raw : B -> string) (l : list B) :
  forall p,
    adjacent_differ
      (p :: map raw (openers raw (fun s => s) (fun s => s) p l)).
Proof.
  induction l as [|k r IH]; intros p; [exact I|].
  cbn [openers]. destruct (String.eqb_spec (raw k) p) as [E|E]; [apply IH|].
  cbn [map]. split; [intros H; apply E; symmetry; exact H | apply IH].
Qed.

Lemma adjacent_differ_nth (names : list string) :
  adjacent_differ names ->
  forall i a b,
    nth_error names i = Some a -> nth_error names (S i) = Some b -> a <> b.
Proof.
  induction names as [|x r IH]; intros H i a b Ha Hb; [destruct i; discriminate|].
  destruct r as [|y r]; [destruct i; discriminate|].
  destruct H as [Hxy H]. destruct i as [|i].
  - cbn in Ha, Hb. injection Ha as <-. injection Hb as <-. exact Hxy.
  - apply (IH H i a b); assumption.
Qed.

Lemma last_app_cons (B : Type) (pre l : list B) (x d d' : B) :
  last (pre ++ x :: l) d = last (x :: l) d'.
Proof.
  revert d. induction pre as [|a pre IH]; intros d; cbn [app].
  - rewrite !last_cons_default. reflexivity.
  - rewrite last_cons_default. apply IH.
Qed.

(** On key strings that all hold a space, every annotation opens an interval
    once the pending name holds none. *)
Lemma key_openers_all (l : list KeyAnnotation) :
  Forall (fun k => str_contains " " (key k) = true) l ->
  forall p, str_contains " " p = false -> key_openers p l = l.
Proof.
  induction 1 as [|k r Hk _ IH]; intros p Hp; [reflexivity|].
  unfold key_openers in *. cbn [openers].
  destruct (String.eqb_spec (key_flat (key k)) p) as [E|E].
  - rewrite <- E, key_flat_space, Hk in Hp. discriminate.
  - f_equal. apply IH, key_flat_colon_space.
Qed.

(** X11: no two consecutive intervals [load_chords] returns carry the same
    chord name. *)
Theorem chord_names_differ_at_every_change :
  forall chords, chords <> [] ->
    exists cd, load_chords chords = Ok cd /\
      forall i a b,
        nth_error (cd_labels cd) i = Some a ->
        nth_error (cd_labels cd) (S i) = Some b ->
        a <> b.
Proof.
  intros [|k0 r] H; [contradiction|].
  eexists. split; [apply load_chords_rows|]. cbn [cd_labels].
  apply adjacent_differ_nth. apply (adjacent_differ_names _ chord).
Qed.

Lemma chord_names_differ_at_every_change_witness :
  exists cd,
    load_chords [mkChord 0 "C"; mkChord 5 "G"; mkChord 9 "G"; mkChord 12 "C"] = Ok cd /\
    forall i a b,
      nth_error (cd_labels cd) i = Some a ->
      nth_error (cd_labels cd) (S i) = Some b ->
      a <> b.
Proof.
  apply chord_names_differ_at_every_change. discriminate.
Defined.

(** X12: either loader returns at least one interval and at most one
    interval per annotation. *)
Theorem interval_count_bounds :
  (forall keys, keys <> [] ->
     exists kd, load_key keys = Ok kd /\
       (1 <= List.length (kd_intervals kd) <= List.length keys)%nat) /\
  (forall chords, chords <> [] ->
     exists cd, load_chords chords = Ok cd /\
       (1 <= List.length (cd_intervals cd) <= List.length chords)%nat).
Proof.
  split.
  - intros [|k0 r] H; [contradiction|].
    eexists. split; [apply load_key_rows|]. cbn [kd_intervals].
    rewrite length_float_rows, length_rows_from, length_map.
    unfold key_openers. cbn [openers].
    rewrite String.eqb_refl.
    pose proof (openers_length _ key key_flat key_flat_colon r (key_flat (key k0))).
    cbn [List.length]. lia.
  - intros [|k0 r] H; [contradiction|].
    eexists. split; [apply load_chords_rows|]. cbn [cd_intervals].
    rewrite length_float_rows, length_rows_from, length_map.
    unfold chord_openers. cbn [openers].
    rewrite String.eqb_refl.
    pose proof (openers_length _ chord (fun s => s) (fun s => s) r (chord k0)).
    cbn [List.length]. lia.
Qed.

Lemma interval_count_bounds_witness :
  (exists kd,
     load_key [mkKey 0 "C major"; mkKey 5 "G major"; mkKey 10 "G major"] = Ok kd /\
     (1 <= List.length (kd_intervals kd)
      <= List.length [mkKey 0 "C major"; mkKey 5 "G major"; mkKey 10 "G major"])%nat) /\
  (exists cd,
     load_chords [mkChord 0 "C"; mkChord 5 "C"; mkChord 6 "G"] = Ok cd /\
     (1 <= List.length (cd_intervals cd)
      <= List.length [mkChord 0 "C"; mkChord 5 "C"; mkChord 6 "G"])%nat).
Proof.
  split.
  - apply (proj1 interval_count_bounds). discriminate.
  - apply (proj2 interval_count_bounds). discriminate.
Defined.

(** X13: a loader returns a single interval exactly when every annotation
    carries the name of the first one (for keys, after the flat-sign
    replacement); the interval then runs from tick 0 to the time of the last
    annotation, as a float. *)
Theorem single_interval_iff_one_name :
  (forall k0 rest,
     exists kd, load_key (k0 :: rest) = Ok kd /\
       (List.length (kd_intervals kd) = 1%nat <->
        Forall (fun k => key_flat (key k) = key_flat (key k0)) rest) /\
       (Forall (fun k => key_flat (key k) = key_flat (key k0)) rest ->
        kd = mkKeyData [(0, float_of_int (key_time (last (k0 :: rest) k0)))] "ticks"
                       [key_flat (key k0)] "key_mode")) /\
  (forall k0 rest,
     exists cd, load_chords (k0 :: rest) = Ok cd /\
       (List.length (cd_intervals cd) = 1%nat <->
        Forall (fun k => chord k = chord k0) rest) /\
       (Forall (fun k => chord k = chord k0) rest ->
        cd = mkChordData [(0, float_of_int (chord_time (last (k0 :: rest) k0)))] "ticks"
                         [chord k0] "open")).
Proof.
  split.
  - intros k0 rest. eexists. split; [apply load_key_rows|]. cbn [kd_intervals].
    unfold key_openers. cbn [openers]. rewrite String.eqb_refl.
    rewrite <- (openers_nil_iff _ key key_flat key_flat_colon).
    split.
    + rewrite length_float_rows, length_rows_from, length_map. split.
      * intros H. apply length_zero_iff_nil. lia.
      * intros ->. reflexivity.
    + intros ->. reflexivity.
  - intros k0 rest. eexists. split; [apply load_chords_rows|]. cbn [cd_intervals].
    unfold chord_openers. cbn [openers]. rewrite String.eqb_refl.
    rewrite <- (openers_nil_iff _ chord (fun s => s) (fun s => s)).
    split.
    + rewrite length_float_rows, length_rows_from, length_map. split.
      * intros H. apply length_zero_iff_nil. lia.
      * intros ->. reflexivity.
    + intros ->. reflexivity.
Qed.

(** X14: in [load_key], once the key has changed for the first time, every
    annotation from that one on whose key string holds a space opens an
    interval of its own: when all of them do, the result has one interval for
    the annotations before the change and one per annotation after it, with
    the times converted to float. *)
Theorem load_key_after_first_change :
  forall k0 pre k post,
    Forall (fun x => key_flat (key x) = key_flat (key k0)) pre ->
    key_flat (key k) <> key_flat (key k0) ->
    Forall (fun x => str_contains " " (key x) = true) post ->
    load_key (k0 :: pre ++ k :: post)
    = Ok (mkKeyData
            (float_rows
               (rows_from 0 (map key_time (k :: post))
                          (key_time (last (k :: post) k))))
            "ticks"
            (key_flat (key k0) :: map (fun x => key_flat_colon (key x)) (k :: post))
            "key_mode").
Proof.
  intros k0 pre k post Hpre Hk Hpost.
  rewrite load_key_rows. unfold key_openers.
  change (k0 :: pre ++ k :: post) with ((k0 :: pre) ++ k :: post).
  rewrite (openers_skip _ key key_flat key_flat_colon (k0 :: pre))
    by (constructor; [reflexivity | exact Hpre]).
  cbn [openers]. destruct (String.eqb_spec (key_flat (key k)) (key_flat (key k0)));
    [contradiction|].
  change (openers key key_flat key_flat_colon (key_flat_colon (key k)) post)
    with (key_openers (key_flat_colon (key k)) post).
  rewrite (key_openers_all post Hpost _ (key_flat_colon_space (key k))).
  rewrite (last_app_cons _ (k0 :: pre) post k k0 k). reflexivity.
Qed.

Lemma load_key_after_first_change_witness :
  load_key ([mkKey 0 "a minor"] ++ [mkKey 3 "a minor"]
              ++ mkKey 8 "E major" :: [mkKey 11 "E major"; mkKey 14 "E major"])
  = Ok (mkKeyData [(0, 7); (8, 10); (11, 13); (14, 14)] "ticks"
          ["a minor"; "E:major"; "E:major"; "E:major"] "key_mode").
Proof.
  apply (load_key_after_first_change (mkKey 0 "a minor") [mkKey 3 "a minor"]
           (mkKey 8 "E major") [mkKey 11 "E major"; mkKey 14 "E major"]).
  - repeat constructor.
  - discriminate.
  - repeat constructor.
Defined.

(** X15: when the times of the annotations are non-negative and strictly
    increasing, no interval a loader returns ends before it starts. *)
Theorem intervals_well_formed_on_increasing_times :
  (forall keys, keys <> [] ->
     nonnegative (map key_time keys) = true ->
     increasing (map key_time keys) = true ->
     exists kd, load_key keys = Ok kd /\
       Forall (fun row => fst row <= snd row) (kd_intervals kd)) /\
  (forall chords, chords <> [] ->
     nonnegative (map chord_time chords) = true ->
     increasing (map chord_time chords) = true ->
     exists cd, load_chords chords = Ok cd /\
       Forall (fun row => fst row <= snd row) (cd_intervals cd)).
Proof.
  split.
  - intros [|k0 r] H Hpos Hinc; [contradiction|].
    apply nonnegative_head in Hpos.
    eexists. split; [apply load_key_rows|]. cbn [kd_intervals].
    apply float_rows_well_formed, strict_chain_rows. unfold key_openers. cbn [openers].
    rewrite String.eqb_refl, <- last_map_default.
    cbn [map]. rewrite last_cons_default.
    apply openers_strict_chain; assumption.
  - intros [|k0 r] H Hpos Hinc; [contradiction|].
    apply nonnegative_head in Hpos.
    eexists. split; [apply load_chords_rows|]. cbn [cd_intervals].
    apply float_rows_well_formed, strict_chain_rows. unfold chord_openers. cbn [openers].
    rewrite String.eqb_refl, <- last_map_default.
    cbn [map]. rewrite last_cons_default.
    apply openers_strict_chain; assumption.
Qed.

Lemma intervals_well_formed_on_increasing_times_witness :
  (exists kd,
     load_key [mkKey 0 "C major"; mkKey 5 "G major"; mkKey 10 "G major"] = Ok kd /\
     Forall (fun row => fst row <= snd row) (kd_intervals kd)) /\
  (exists cd,
     load_chords [mkChord 0 "C"; mkChord 5 "C"; mkChord 6 "G"; mkChord 20 "G"] = Ok cd /\
     Forall (fun row => fst row <= snd row) (cd_intervals cd)).
Proof.
  split.
  - apply (proj1 intervals_well_formed_on_increasing_times);
      [discriminate | reflexivity | reflexivity].
  - apply (proj2 intervals_well_formed_on_increasing_times);
      [discriminate | reflexivity | reflexivity].
Defined.

(** Two annotations at one tick with different names give an interval that
    ends before it starts. *)
Example interval_ends_before_it_starts :
  load_chords [mkChord 0 "C"; mkChord 4 "G"; mkChord 4 "D"]
  = Ok (mkChordData [(0, 3); (4, 3); (4, 4)] "ticks" ["C"; "G"; "D"] "open").
Proof. reflexivity. Qed.

(** ** A score at work *)

Lemma annotation_times_keep_order_witness :
  nondecreasing
    (map key_time
       (_load_key_base Z.eq_dec (fun o r => o * r)
          [mkRomanNumeral 0 true None "C major" "I" "C-major triad";
           mkRomanNumeral 2 true (Some "G major") "C major" "V/V" "D-major triad";
           mkRomanNumeral 2 true None "C major" "V" "G-major triad";
           mkRomanNumeral 4 false None "C major" "I" "C-major triad"]
          28)) = true.
Proof.
  apply (annotation_times_keep_order Z Z.eq_dec (fun o r => o * r)). reflexivity.
Defined.

Lemma duration_is_last_end_time_witness :
  exists d kd cd,
    track_duration Z.eq_dec (fun o r => o * r)
      [mkRomanNumeral 0 true None "C major" "I" "C-major triad";
       mkRomanNumeral 2 true None "C major" "V" "G-major triad"] = Ok d /\
    getitem_last
      (map key_time
         (track_keys_music21 Z.eq_dec (fun o r => o * r)
            [mkRomanNumeral 0 true None "C major" "I" "C-major triad";
             mkRomanNumeral 2 true None "C major" "V" "G-major triad"])) = Ok d /\
    track_keys Z.eq_dec (fun o r => o * r)
      [mkRomanNumeral 0 true None "C major" "I" "C-major triad";
       mkRomanNumeral 2 true None "C major" "V" "G-major triad"] = Ok kd /\
    track_chords Z.eq_dec (fun o r => o * r)
      [mkRomanNumeral 0 true None "C major" "I" "C-major triad";
       mkRomanNumeral 2 true None "C major" "V" "G-major triad"] = Ok cd /\
    getitem_last (map snd (kd_intervals kd)) = Ok d /\
    getitem_last (map snd (cd_intervals cd)) = Ok d.
Proof.
  assert (Hne : _split_score_annotations Z.eq_dec
                  [mkRomanNumeral 0 true None "C major" "I" "C-major triad";
                   mkRomanNumeral 2 true None "C major" "V" "G-major triad"] <> [])
    by (vm_compute; discriminate).
  destruct (duration_is_last_end_time Z Z.eq_dec (fun o r => o * r) _ Hne)
    as (d & kd & cd & Hd & Hlast & Hkd & Hcd & _ & _ & Hexact).
  exists d, kd, cd. repeat (split; [assumption|]).
  apply Hexact. repeat constructor.
Defined.

Lemma track_without_annotations_witness :
  track_keys_music21 Z.eq_dec (fun o r => o * r)
    [mkRomanNumeral 0 false None "C major" "I" ""] = [] /\
  track_chords_music21 Z.eq_dec (fun o r => o * r)
    [mkRomanNumeral 0 false None "C major" "I" ""] = [] /\
  track_roman_numerals Z.eq_dec (fun o r => o * r)
    [mkRomanNumeral 0 false None "C major" "I" ""] = [] /\
  track_keys Z.eq_dec (fun o r => o * r)
    [mkRomanNumeral 0 false None "C major" "I" ""] = Raise IndexError /\
  track_chords Z.eq_dec (fun o r => o * r)
    [mkRomanNumeral 0 false None "C major" "I" ""] = Raise IndexError /\
  track_duration Z.eq_dec (fun o r => o * r)
    [mkRomanNumeral 0 false None "C major" "I" ""] = Raise IndexError.
Proof.
  apply (track_without_annotations Z Z.eq_dec (fun o r => o * r)).
  intros pre rn post E _.
  destruct pre as [|a pre]; cbn [app] in E.
  - injection E as <- _. reflexivity.
  - destruct pre; discriminate.
Defined.

Lemma score_intervals_ordered_and_covering_witness :
  (exists kd,
      load_key_of Z.eq_dec (fun o r => o * r)
        [mkRomanNumeral 0 true None "C major" "I" "C-major triad";
         mkRomanNumeral 2 true (Some "G major") "C major" "V/V" "D-major triad";
         mkRomanNumeral 3 true None "C major" "V" "G-major triad"] 28 = Ok kd /\
      nondecreasing (map fst (kd_intervals kd)) = true /\
      ForallOrdPairs (fun r1 r2 => snd r1 < fst r2) (kd_intervals kd) /\
      forall k,
        In k (load_key_music21 Z.eq_dec (fun o r => o * r)
                [mkRomanNumeral 0 true None "C major" "I" "C-major triad";
                 mkRomanNumeral 2 true (Some "G major") "C major" "V/V" "D-major triad";
                 mkRomanNumeral 3 true None "C major" "V" "G-major triad"] 28) ->
        covering (key_time k) (kd_intervals kd) = 1%nat) /\
  (exists cd,
      load_chords_of Z.eq_dec (fun o r => o * r)
        [mkRomanNumeral 0 true None "C major" "I" "C-major triad";
         mkRomanNumeral 2 true (Some "G major") "C major" "V/V" "D-major triad";
         mkRomanNumeral 3 true None "C major" "V" "G-major triad"] 28 = Ok cd /\
      nondecreasing (map fst (cd_intervals cd)) = true /\
      ForallOrdPairs (fun r1 r2 => snd r1 < fst r2) (cd_intervals cd) /\
      forall k,
        In k (load_chords_music21 Z.eq_dec (fun o r => o * r)
                [mkRomanNumeral 0 true None "C major" "I" "C-major triad";
                 mkRomanNumeral 2 true (Some "G major") "C major" "V/V" "D-major triad";
                 mkRomanNumeral 3 true None "C major" "V" "G-major triad"] 28) ->
        covering (chord_time k) (cd_intervals cd) = 1%nat).
Proof.
  apply (score_intervals_ordered_and_covering Z Z.eq_dec (fun o r => o * r)).
  - vm_compute. discriminate.
  - reflexivity.
  - reflexivity.
  - reflexivity.
Defined.

Example score_with_repeated_offset :
  _split_score_annotations Z.eq_dec
    [mkRomanNumeral 0 true None "C major" "I" "C-major triad";
     mkRomanNumeral 2 true None "C major" "ii" "D-minor triad";
     mkRomanNumeral 0 true None "C major" "vi" "A-minor triad";
     mkRomanNumeral 2 false None "C major" "V" ""]
  = [(0, mkRomanNumeral 0 true None "C major" "vi" "A-minor triad")].
Proof. reflexivity. Qed.
